(** * Safe-mutation pipeline of [src/tools/ComposerTools.ts]

    A shallow embedding of the composer tools: the line-ending aware
    replacement, the SEARCH/REPLACE block parser, the [replaceInFile]
    handler, the git backup taken before a delete or a move, and the
    recovery of a file from such a backup; then [writeToFile] with
    [getFile] and the preview, and the list of recent operations read
    from the history.

    JavaScript strings are sequences of UTF-16 code units; a code unit is
    modelled as a number in [N] and a string as a list of them, so that
    [length] is the [.length] of the source. *)

From Stdlib Require Import NArith List Bool Lia Ascii String.
From stdpp Require Import gmap list.

#[local] Open Scope N_scope.
#[local] Open Scope nat_scope.
#[local] Open Scope list_scope.

(** ** Strings of code units *)

Module JS.

Abbreviation jsstring := (list N).

(** A literal of the source, written as a Rocq string of ASCII characters. *)
Definition str (s : string) : jsstring :=
  List.map N_of_ascii (list_ascii_of_string s).

Definition LF : N := 10%N.
Definition CR : N := 13%N.
Definition DOLLAR : N := 36%N.
Definition AMPERSAND : N := 38%N.
Definition QUOTE : N := 39%N.
Definition BACKTICK : N := 96%N.

(** The characters removed by [trim] and matched by [\s]: ECMAScript's
    WhiteSpace and LineTerminator productions. *)
Definition is_space (c : N) : bool :=
  ((9 <=? c) && (c <=? 13) || (c =? 32) || (c =? 160) || (c =? 5760)
   || (8192 <=? c) && (c <=? 8202) || (c =? 8232) || (c =? 8233)
   || (c =? 8239) || (c =? 8287) || (c =? 12288) || (c =? 65279))%N.

Fixpoint str_eqb (a b : jsstring) : bool :=
  match a, b with
  | [], [] => true
  | x :: a', y :: b' => (x =? y)%N && str_eqb a' b'
  | _, _ => false
  end.

(** [l.startsWith(s)] *)
Fixpoint startsWith (l s : jsstring) : bool :=
  match s with
  | [] => true
  | x :: s' =>
      match l with
      | [] => false
      | y :: l' => (x =? y)%N && startsWith l' s'
      end
  end.

(** [l.includes(s)] *)
Fixpoint includes (l s : jsstring) : bool :=
  startsWith l s ||
  match l with
  | [] => false
  | _ :: l' => includes l' s
  end.

Fixpoint trimStart (l : jsstring) : jsstring :=
  match l with
  | [] => []
  | c :: l' => if is_space c then trimStart l' else l
  end.

Definition trimEnd (l : jsstring) : jsstring := rev (trimStart (rev l)).

Definition trim (l : jsstring) : jsstring := trimEnd (trimStart l).

(** ECMAScript's GetSubstitution for a string pattern: there are no
    captures, so [$$], [$&], [$`] and [$'] are the only sequences of the
    replacement template that are expanded; [$1], [$<] and a dollar
    followed by anything else stay as they are. [whole] is the string
    searched and [position] the index of the match in it. *)
Fixpoint GetSubstitution (matched whole : jsstring) (position : nat)
    (template : jsstring) : jsstring :=
  match template with
  | [] => []
  | c :: rest =>
      if (c =? DOLLAR)%N then
        match rest with
        | [] => [c]
        | d :: rest' =>
            if (d =? DOLLAR)%N then
              DOLLAR :: GetSubstitution matched whole position rest'
            else if (d =? BACKTICK)%N then
              firstn position whole
                ++ GetSubstitution matched whole position rest'
            else if (d =? AMPERSAND)%N then
              matched ++ GetSubstitution matched whole position rest'
            else if (d =? QUOTE)%N then
              skipn (position + length matched) whole
                ++ GetSubstitution matched whole position rest'
            else c :: GetSubstitution matched whole position rest
        end
      else c :: GetSubstitution matched whole position rest
  end.

(** [whole.replaceAll(s, template)] for a string pattern [s], as one scan
    of [whole]: [l] is what is left of [whole] from index [pos], and
    [skip] counts the code units of the current match still to be
    dropped. A match is the first index at or after the end of the
    previous match where [s] starts (StringIndexOf), and the search
    resumes [max 1 (length s)] code units later, so the empty pattern
    matches at every index, the end of the string included. *)
Fixpoint replaceAll_scan (whole s template : jsstring) (pos skip : nat)
    (l : jsstring) {struct l} : jsstring :=
  match skip with
  | S k =>
      match l with
      | [] => []
      | _ :: t => replaceAll_scan whole s template (S pos) k t
      end
  | O =>
      if startsWith l s then
        GetSubstitution s whole pos template ++
        match l with
        | [] => []
        | c :: t =>
            match s with
            | [] => c :: replaceAll_scan whole s template (S pos) 0 t
            | _ :: s' => replaceAll_scan whole s template (S pos) (length s') t
            end
        end
      else
        match l with
        | [] => []
        | c :: t => c :: replaceAll_scan whole s template (S pos) 0 t
        end
  end.

Definition replaceAll (whole s template : jsstring) : jsstring :=
  replaceAll_scan whole s template 0 0 whole.

End JS.

Import JS.

(** ** Line endings *)

(** [text.replace(/\r\n/g, "\n")] *)
Fixpoint replace_crlf_by_lf (text : jsstring) : jsstring :=
  match text with
  | [] => []
  | c :: t =>
      match t with
      | d :: t' =>
          if (c =? CR)%N && (d =? LF)%N then LF :: replace_crlf_by_lf t'
          else c :: replace_crlf_by_lf t
      | [] => [c]
      end
  end.

(** [text.replace(/\r/g, "\n")] *)
Definition replace_cr_by_lf (text : jsstring) : jsstring :=
  List.map (fun c => if (c =? CR)%N then LF else c) text.

(** [text.replace(/\n/g, "\r\n")] *)
Definition replace_lf_by_crlf (text : jsstring) : jsstring :=
  flat_map (fun c => if (c =? LF)%N then [CR; LF] else [c]) text.

Definition normalizeLineEndings (text : jsstring) : jsstring :=
  replace_cr_by_lf (replace_crlf_by_lf text).

(** [(content.match(/\r\n/g) || []).length] *)
Fixpoint crlfCount (content : jsstring) : nat :=
  match content with
  | [] => 0
  | c :: t =>
      match t with
      | d :: t' =>
          if (c =? CR)%N && (d =? LF)%N then S (crlfCount t') else crlfCount t
      | [] => 0
      end
  end.

(** [(content.match(/(?<!\r)\n/g) || []).length]; [after_cr] tells whether
    the code unit before [content] is a carriage return. *)
Fixpoint lfCount_from (after_cr : bool) (content : jsstring) : nat :=
  match content with
  | [] => 0
  | c :: t =>
      (if (c =? LF)%N && negb after_cr then 1 else 0)
      + lfCount_from (c =? CR)%N t
  end.

Definition lfCount (content : jsstring) : nat := lfCount_from false content.

(** The style detected at the head of [replaceWithLineEndingAwareness]. *)
Definition usesCrlf (content : jsstring) : bool :=
  lfCount content <? crlfCount content.

(** The restoration at its end. *)
Definition restoreLineEndings (crlf : bool) (text : jsstring) : jsstring :=
  if crlf then replace_lf_by_crlf text else text.

Definition replaceWithLineEndingAwareness
    (content searchText replaceText : jsstring) : jsstring :=
  let normalizedContent := normalizeLineEndings content in
  let normalizedSearchText := normalizeLineEndings searchText in
  let normalizedReplaceText := normalizeLineEndings replaceText in
  let resultNormalized :=
    replaceAll normalizedContent normalizedSearchText normalizedReplaceText in
  restoreLineEndings (usesCrlf content) resultNormalized.

(** ** The SEARCH/REPLACE block parser *)

(** A backtracking matcher for the fragment of JavaScript regular
    expressions that [parseSearchReplaceBlocks] uses. Alternatives are
    tried in the order of the ECMAScript semantics: a greedy quantifier
    tries the longer match first, a lazy one the shorter. *)
Module Regex.

Inductive cclass :=
| CLit (c : N)      (* one literal code unit *)
| CSpace            (* \s *)
| CAny.             (* [\s\S] *)

Definition in_class (cl : cclass) (c : N) : bool :=
  match cl with
  | CLit x => (c =? x)%N
  | CSpace => is_space c
  | CAny => true
  end.

Inductive regex :=
| Empty                              (* the empty pattern *)
| Chars (cl : cclass)
| Cat (r1 r2 : regex)
| Opt (r : regex)                    (* (?:r)?  greedy *)
| Rep (min : nat) (cl : cclass)      (* cl{min,} greedy; cl* is Rep 0 cl *)
| LazyStar (cl : cclass)             (* cl*? *)
| Group (r : regex).                 (* (r), capturing *)

(** The least number of code units a pattern takes. *)
Fixpoint min_length (r : regex) : nat :=
  match r with
  | Empty => 0
  | Chars _ => 1
  | Cat r1 r2 => min_length r1 + min_length r2
  | Opt _ => 0
  | Rep min _ => min
  | LazyStar _ => 0
  | Group r' => min_length r'
  end.

Section Matcher.
Context {R : Type}.

Fixpoint exactly (n : nat) (p : N -> bool) (inp : jsstring)
    (k : jsstring -> option R) : option R :=
  match n with
  | O => k inp
  | S n' =>
      match inp with
      | c :: t => if p c then exactly n' p t k else None
      | [] => None
      end
  end.

Fixpoint greedy_star (p : N -> bool) (inp : jsstring)
    (k : jsstring -> option R) : option R :=
  match inp with
  | c :: t =>
      if p c then
        match greedy_star p t k with
        | Some x => Some x
        | None => k inp
        end
      else k inp
  | [] => k inp
  end.

Fixpoint lazy_star (p : N -> bool) (inp : jsstring)
    (k : jsstring -> option R) : option R :=
  match k inp with
  | Some x => Some x
  | None =>
      match inp with
      | c :: t => if p c then lazy_star p t k else None
      | [] => None
      end
  end.

(** [rmatch r inp caps k]: match [r] at the head of [inp], then run the
    continuation [k] on what is left and on the captures so far; a
    failure of [k] makes the matcher backtrack. *)
Fixpoint rmatch (r : regex) (inp : jsstring) (caps : list jsstring)
    (k : jsstring -> list jsstring -> option R) : option R :=
  match r with
  | Empty => k inp caps
  | Chars cl =>
      match inp with
      | c :: t => if in_class cl c then k t caps else None
      | [] => None
      end
  | Cat r1 r2 =>
      rmatch r1 inp caps (fun rest caps' => rmatch r2 rest caps' k)
  | Opt r' =>
      match rmatch r' inp caps k with
      | Some x => Some x
      | None => k inp caps
      end
  | Rep min cl =>
      exactly min (in_class cl) inp
        (fun rest => greedy_star (in_class cl) rest
                       (fun rest' => k rest' caps))
  | LazyStar cl => lazy_star (in_class cl) inp (fun rest => k rest caps)
  | Group r' =>
      rmatch r' inp caps
        (fun rest caps' =>
           k rest (caps' ++ [firstn (length inp - length rest) inp]))
  end.
End Matcher.

(** The literal word [w] *)
Fixpoint word (w : jsstring) (after : regex) : regex :=
  match w with
  | [] => after
  | c :: w' => Cat (Chars (CLit c)) (word w' after)
  end.

(** [(?:\r?\n)?] *)
Definition OPT_NEWLINE : regex :=
  Opt (Cat (Opt (Chars (CLit CR))) (Chars (CLit LF))).

(** [/-{3,}\s*SEARCH\s*(?:\r?\n)?/] *)
Definition SEARCH_MARKER : regex :=
  Cat (Rep 3 (CLit 45%N))
    (Cat (Rep 0 CSpace)
       (word (str "SEARCH") (Cat (Rep 0 CSpace) OPT_NEWLINE))).

(** [/(?:\r?\n)?={3,}\s*(?:\r?\n)?/] *)
Definition SEPARATOR : regex :=
  Cat OPT_NEWLINE (Cat (Rep 3 (CLit 61%N)) (Cat (Rep 0 CSpace) OPT_NEWLINE)).

(** [/(?:\r?\n)?\+{3,}\s*REPLACE/] *)
Definition REPLACE_MARKER : regex :=
  Cat OPT_NEWLINE
    (Cat (Rep 3 (CLit 43%N))
       (Cat (Rep 0 CSpace) (word (str "REPLACE") Empty))).

End Regex.

Import Regex.

Record block := { searchText : jsstring; replaceText : jsstring }.

(** The pattern built by [new RegExp(..., "g")]. *)
Definition blockRegex : regex :=
  Cat SEARCH_MARKER
    (Cat (Group (LazyStar CAny))
       (Cat SEPARATOR (Cat (Group (LazyStar CAny)) REPLACE_MARKER))).

(** One [blockRegex.exec(diff)]: [inp] is [diff] from [lastIndex] on. The
    start positions are tried from left to right; the result is the
    captures of the first match and what follows it, from where the next
    call resumes. *)
Fixpoint exec (inp : jsstring) : option (list jsstring * jsstring) :=
  match rmatch blockRegex inp [] (fun rest caps => Some (caps, rest)) with
  | Some m => Some m
  | None =>
      match inp with
      | [] => None
      | _ :: t => exec t
      end
  end.

(** The [while] loop over the matches. A match holds at least one code
    unit, so [lastIndex] grows at every turn and [fuel] bounds the
    number of turns: it never runs out (see [parse_loop_fuel] and
    [parseSearchReplaceBlocks_unfold]). *)
Fixpoint parse_loop (fuel : nat) (inp : jsstring) : list block :=
  match fuel with
  | O => []
  | S fuel' =>
      match exec inp with
      | None => []
      | Some (caps, rest) =>
          {| searchText := trim (nth 0 caps []);
             replaceText := trim (nth 1 caps []) |} :: parse_loop fuel' rest
      end
  end.

Definition parseSearchReplaceBlocks (diff : jsstring) : list block :=
  parse_loop (S (length diff)) diff.

(** ** The document store and the [replaceInFile] tool *)

(** What [app.vault.getAbstractFileByPath] finds at a path. *)
Inductive abstract_file :=
| TFile (content : jsstring)
| TFolder.

Inductive ApplyViewResult := accepted | rejected | failed.

(** A commit of the vault's repository: its subject line, its first parent
    and the files it records. A commit is named by its index in the list of
    commits of the repository. *)
Record commit := {
  c_message : jsstring;
  c_parent : option nat;
  c_tree : gmap jsstring jsstring;
}.

(** The repository as the git commands of the source see it.
    [commit_refused] stands for whatever makes [git add -A && git commit]
    exit with an error in a work tree (a failing hook, no identity). *)
Record repository := {
  commits : list commit;
  HEAD : option nat;
  commit_refused : bool;
}.

(** The world the tools act on: what the vault holds at each path, the
    setting that skips the preview, and the repository of the vault when it
    has one, whose work tree is the vault. [vault_faulty] stands for a
    vault whose writing primitives throw, which the handlers catch. *)
Record world := {
  vault : gmap jsstring abstract_file;
  vault_faulty : bool;               (* modify, trash and rename throw *)
  autoAcceptEdits : bool;            (* getSettings().autoAcceptEdits *)
  git : option repository;           (* None: the vault is not a work tree *)
}.

Definition set_vault (w : world) (v : gmap jsstring abstract_file) : world :=
  {| vault := v; vault_faulty := vault_faulty w;
     autoAcceptEdits := autoAcceptEdits w; git := git w |}.

Definition set_git (w : world) (g : option repository) : world :=
  {| vault := vault w; vault_faulty := vault_faulty w;
     autoAcceptEdits := autoAcceptEdits w; git := g |}.

(** What the handler of [replaceInFile] returns: one constructor for each
    message of the source, with the values the message is built from. *)
Inductive replace_result :=
| FileNotFound (path : jsstring)
| FileTooSmall
| NoValidBlocks (diff : jsstring)
| SearchTextNotFound (path searchText : jsstring)
| NoChangesMade (path : jsstring)
| Applied (result : ApplyViewResult) (blocksApplied : nat).

Definition MIN_FILE_SIZE_FOR_REPLACE : nat := 3000.

(** The body of the [for] loop for one block: the searched text that was
    not found, or the new working content and the new count. *)
Definition apply_block (modifiedContent : jsstring) (changesApplied : nat)
    (b : block) : jsstring + (jsstring * nat) :=
  let normalizedContent := normalizeLineEndings modifiedContent in
  let normalizedSearchText := normalizeLineEndings (searchText b) in
  let texts :=
    if includes normalizedContent normalizedSearchText then
      Some (searchText b, replaceText b)
    else if includes normalizedContent (trimEnd normalizedSearchText) then
      Some (trimEnd (searchText b), trimEnd (replaceText b))
    else None in
  match texts with
  | None => inl (searchText b)
  | Some (searchText', replaceText') =>
      let beforeReplace := modifiedContent in
      let modifiedContent' :=
        replaceWithLineEndingAwareness modifiedContent searchText' replaceText' in
      inr (modifiedContent',
           if str_eqb modifiedContent' beforeReplace then changesApplied
           else S changesApplied)
  end.

(** The [for] loop. *)
Fixpoint apply_blocks (modifiedContent : jsstring) (changesApplied : nat)
    (blocks : list block) : jsstring + (jsstring * nat) :=
  match blocks with
  | [] => inr (modifiedContent, changesApplied)
  | b :: blocks' =>
      match apply_block modifiedContent changesApplied b with
      | inl notFound => inl notFound
      | inr (modifiedContent', changesApplied') =>
          apply_blocks modifiedContent' changesApplied' blocks'
      end
  end.

Section Tools.

(** The preview of [ApplyView], which is not part of the file: it shows the
    change of the file at a path to a new content and answers with the
    user's decision, and may write to the vault when the user accepts. *)
Variable show_preview : jsstring -> jsstring -> world -> ApplyViewResult * world.

Definition replaceInFile (w : world) (path diff : jsstring)
    : replace_result * world :=
  match vault w !! path with
  | Some (TFile originalContent) =>
      if length originalContent <? MIN_FILE_SIZE_FOR_REPLACE then
        (FileTooSmall, w)
      else
        let searchReplaceBlocks := parseSearchReplaceBlocks diff in
        match searchReplaceBlocks with
        | [] => (NoValidBlocks diff, w)
        | _ =>
            match apply_blocks originalContent 0 searchReplaceBlocks with
            | inl notFound => (SearchTextNotFound path notFound, w)
            | inr (modifiedContent, changesApplied) =>
                if str_eqb originalContent modifiedContent then
                  (NoChangesMade path, w)
                else if autoAcceptEdits w then
                  if vault_faulty w then (Applied failed changesApplied, w)
                  else
                    (Applied accepted changesApplied,
                     set_vault w (<[path := TFile modifiedContent]> (vault w)))
                else
                  let '(result, w') := show_preview path modifiedContent w in
                  (Applied result changesApplied, w')
            end
        end
  | _ => (FileNotFound path, w)
  end.

(** *** Backups and recovery *)

Definition AUTO_BACKUP : jsstring := str "[Auto-backup]".

(** The files [git add -A] stages: every file of the vault. The model is
    that of a work tree without ignore rules, whose files are those the
    vault lists. *)
Definition worktree (v : gmap jsstring abstract_file) : gmap jsstring jsstring :=
  omap (fun f => match f with TFile c => Some c | TFolder => None end) v.

(** [git add -A && git commit -m message --allow-empty] in a work tree. *)
Definition git_commit_all (r : repository) (v : gmap jsstring abstract_file)
    (message : jsstring) : option repository :=
  if commit_refused r then None
  else
    Some {| commits := commits r ++
                       [{| c_message := message; c_parent := HEAD r;
                           c_tree := worktree v |}];
            HEAD := Some (length (commits r));
            commit_refused := commit_refused r |}.

(** The [try] block returns [true] after the commit; every error of a git
    command lands in the [catch], which logs and returns [false]. The
    source writes the message between double quotes in a command line for
    [sh]; the model takes the message as it is, which is what [sh] does
    with a text that has no double quote, dollar sign, backslash or
    backquote. *)
Definition gitCommitBeforeRiskyAction (w : world) (action : jsstring)
    : bool * world :=
  match git w with
  | None => (false, w)               (* rev-parse: not a git repository *)
  | Some r =>
      let commitMessage := AUTO_BACKUP ++ str " " ++ action in
      match git_commit_all r (vault w) commitMessage with
      | None => (false, w)
      | Some r' => (true, set_git w (Some r'))
      end
  end.

Inductive delete_result :=
| DeleteFileNotFound (path : jsstring)
| Deleted (gitBackup : bool)
| DeleteError.

Definition deleteNote (w : world) (path : jsstring) : delete_result * world :=
  match vault w !! path with
  | Some (TFile _) =>
      let '(gitBackup, w1) :=
        gitCommitBeforeRiskyAction w (str "Before deleting: " ++ path) in
      if vault_faulty w1 then (DeleteError, w1)
      else (Deleted gitBackup, set_vault w1 (delete path (vault w1)))
  | _ => (DeleteFileNotFound path, w)
  end.

Inductive move_result :=
| SourceNotFound (sourcePath : jsstring)
| DestinationExists (destinationPath : jsstring)
| Moved (gitBackup : bool) (oldPath newPath : jsstring)
| MoveError.

Fixpoint after_slash (l : jsstring) : jsstring :=
  match l with
  | [] => []
  | c :: t => if (c =? 47)%N then t else after_slash t
  end.

(** [p.includes("/") ? p.split("/").slice(0, -1).join("/") : ""] *)
Definition parent_folder (p : jsstring) : jsstring := rev (after_slash (rev p)).

(** [ensureFolderExists] of [@/utils], which is not part of the file: it
    works on the vault. *)
Variable ensureFolderExists :
  jsstring -> gmap jsstring abstract_file -> gmap jsstring abstract_file.

Definition moveNote (w : world) (sourcePath destinationPath : jsstring)
    : move_result * world :=
  match vault w !! sourcePath with
  | Some (TFile content) =>
      match vault w !! destinationPath with
      | Some _ => (DestinationExists destinationPath, w)
      | None =>
          let destFolder := parent_folder destinationPath in
          let w0 :=
            match destFolder with
            | [] => w
            | _ => set_vault w (ensureFolderExists destFolder (vault w))
            end in
          let '(gitBackup, w1) :=
            gitCommitBeforeRiskyAction w0
              (str "Before moving: " ++ sourcePath ++ str " -> "
                 ++ destinationPath) in
          if vault_faulty w1 then (MoveError, w1)
          else
            (Moved gitBackup sourcePath destinationPath,
             set_vault w1
               (<[destinationPath := TFile content]>
                  (delete sourcePath (vault w1))))
      end
  | _ => (SourceNotFound sourcePath, w)
  end.

Inductive undo_result :=
| NotAutoBackup (commitHash : nat)
| AlreadyExists (filePath : jsstring)
| Recovered (recoveredPath : jsstring) (fromCommit : nat)
| NotInHistory (filePath : jsstring)
| RecoverError.

(** [git log -1 --format="%s" commitHash]: the subject of the commit. *)
Definition git_subject (g : option repository) (commitHash : nat)
    : option jsstring :=
  r ← g; c ← commits r !! commitHash; Some (c_message c).

(** What [git checkout commitHash^ -- filePath] writes at [filePath]: the
    file as the first parent of the commit records it. [inl true] is the
    error of a path the parent does not have (did not match any file),
    [inl false] any other error. The source writes the path between double
    quotes in a command line for [sh], and git reads it as a pathspec; the
    model is that of a path which is the name of one file: literal for
    [sh], without the signs of a glob, and not the name of a folder of the
    parent's tree. *)
Definition git_file_at_parent (g : option repository) (commitHash : nat)
    (filePath : jsstring) : bool + jsstring :=
  match g with
  | None => inl false
  | Some r =>
      match commits r !! commitHash with
      | None => inl false
      | Some c =>
          match c_parent c with
          | None => inl false
          | Some p =>
              match commits r !! p with
              | None => inl false
              | Some pc =>
                  match c_tree pc !! filePath with
                  | None => inl true
                  | Some content => inr content
                  end
              end
          end
      end
  end.

Definition undoFileOperation (w : world) (commitHash : nat)
    (filePath : jsstring) : undo_result * world :=
  match git_subject (git w) commitHash with
  | None => (RecoverError, w)
  | Some commitInfo =>
      if negb (includes commitInfo AUTO_BACKUP) then
        (NotAutoBackup commitHash, w)
      else
        match vault w !! filePath with
        | Some _ => (AlreadyExists filePath, w)
        | None =>
            match git_file_at_parent (git w) commitHash filePath with
            | inr content =>
                (Recovered filePath commitHash,
                 set_vault w (<[filePath := TFile content]> (vault w)))
            | inl true => (NotInHistory filePath, w)
            | inl false => (RecoverError, w)
            end
        end
  end.

End Tools.

(** ** The [writeToFile] tool *)

Section WriteTool.

(** [ensureFolderExists] of [@/utils] and the view of [ApplyView], which
    are not part of the file, and the objects that [JSON.stringify]
    writes out. *)
Variable ensureFolderExists :
  jsstring -> gmap jsstring abstract_file -> gmap jsstring abstract_file.
Variable apply_view : jsstring -> jsstring -> world -> ApplyViewResult * world.
Variable object : Type.
Variable JSON_stringify : object -> jsstring.

(** [getFile]: [true] with a world that has a file at the path, or
    [false] when it throws. A path that is free gets its folder and then
    an empty file. *)
Definition getFile (w : world) (file_path : jsstring) : bool * world :=
  match vault w !! file_path with
  | Some (TFile _) => (true, w)
  | Some TFolder => (false, w)       (* exists but is not a file *)
  | None =>
      let folder := parent_folder file_path in
      let w0 :=
        match folder with
        | [] => w
        | _ => set_vault w (ensureFolderExists folder (vault w))
        end in
      match vault w0 !! file_path with
      | Some (TFile _) => (true, w0)
      | Some TFolder => (false, w0)  (* vault.create throws *)
      | None => (true, set_vault w0 (<[file_path := TFile []]> (vault w0)))
      end
  end.

(** [show_preview]: the decision of the user, or [None] when [getFile]
    throws. *)
Definition show_preview (file_path content : jsstring) (w : world)
    : option ApplyViewResult * world :=
  match getFile w file_path with
  | (true, w1) =>
      let '(result, w2) := apply_view file_path content w1 in
      (Some result, w2)
  | (false, w1) => (None, w1)
  end.

Inductive write_result :=
| WriteAnswer (result : ApplyViewResult)
| WriteThrown.

(** [typeof content === "string" ? content : JSON.stringify(content, null, 2)] *)
Definition content_string (content : jsstring + object) : jsstring :=
  match content with
  | inl text => text
  | inr o => JSON_stringify o
  end.

Definition writeToFile (w : world) (path : jsstring)
    (content : jsstring + object) (confirmation : bool)
    : write_result * world :=
  let contentString := content_string content in
  let shouldBypassConfirmation := autoAcceptEdits w || negb confirmation in
  if shouldBypassConfirmation then
    match getFile w path with
    | (true, w1) =>
        if vault_faulty w1 then (WriteAnswer failed, w1)
        else
          (WriteAnswer accepted,
           set_vault w1 (<[path := TFile contentString]> (vault w1)))
    | (false, w1) => (WriteAnswer failed, w1)
    end
  else
    match show_preview path contentString w with
    | (Some result, w1) => (WriteAnswer result, w1)
    | (None, w1) => (WriteThrown, w1)
    end.

End WriteTool.

(** ** The list of recent operations *)

(** [s.split(sep)] for a separator that is not empty: [acc] is the piece
    being read and [skip] counts the code units of the separator still to
    be dropped. *)
Fixpoint split_go (sep : jsstring) (skip : nat) (acc l : jsstring)
    {struct l} : list jsstring :=
  match l with
  | [] => [acc]
  | c :: t =>
      match skip with
      | S k => split_go sep k acc t
      | O =>
          if startsWith l sep then acc :: split_go sep (length sep - 1) [] t
          else split_go sep 0 (acc ++ [c]) t
      end
  end.

Definition split (s sep : jsstring) : list jsstring := split_go sep 0 [] s.

(** [parts.join(sep)] *)
Fixpoint join (sep : jsstring) (parts : list jsstring) : jsstring :=
  match parts with
  | [] => []
  | p :: ps =>
      match ps with
      | [] => p
      | _ => p ++ sep ++ join sep ps
      end
  end.

(** [file_path.includes("/") ? file_path.split("/").slice(0, -1).join("/") : ""]:
    the folder of a path as [getFile] and [moveNote] write it, with
    [removelast] for [slice(0, -1)]. [parent_folder] above is shown to be the
    text that this expression computes. *)
Definition folder_by_split (file_path : jsstring) : jsstring :=
  if includes file_path (str "/")
  then join (str "/") (removelast (split file_path (str "/")))
  else [].

(** [whole.replace(pattern, template)] for a string pattern: the first
    occurrence only. *)
Fixpoint replace_scan (whole pattern template : jsstring) (pos : nat)
    (l : jsstring) : jsstring :=
  if startsWith l pattern then
    GetSubstitution pattern whole pos template ++ skipn (length pattern) l
  else
    match l with
    | [] => []
    | c :: t => c :: replace_scan whole pattern template (S pos) t
    end.

Definition replace (whole pattern template : jsstring) : jsstring :=
  replace_scan whole pattern template 0 whole.

Inductive action_type := action_delete | action_move | action_unknown.

Record operation := {
  op_index : nat;
  op_hash : jsstring;
  op_timeAgo : jsstring;
  op_actionType : action_type;
  op_filePath : jsstring;
  op_destPath : jsstring;
  op_fullMessage : jsstring;
}.

(** The action and the paths read in the subject of a commit. *)
Definition message_action (message : jsstring)
    : action_type * jsstring * jsstring :=
  if includes message (str "Before deleting:") then
    (action_delete,
     trim (replace message (str "[Auto-backup] Before deleting: ") []),
     [])
  else if includes message (str "Before moving:") then
    let paths :=
      trim (replace message (str "[Auto-backup] Before moving: ") []) in
    match split paths (str " -> ") with
    | src :: dst :: _ => (action_move, trim src, trim dst)
    | src :: [] => (action_move, trim src, [])
    | [] => (action_move, [], [])
    end
  else (action_unknown, [], []).

(** The function mapped over the lines of [git log]: [None] when the line
    has no second field, where [timeAgo.trim()] throws. *)
Definition operation_of_line (line : jsstring) (index : nat)
    : option operation :=
  match split line (str "|") with
  | hash :: timeAgo :: messageParts =>
      let message := join (str "|") messageParts in
      let '(actionType, filePath, destPath) := message_action message in
      Some {| op_index := S index;
              op_hash := trim hash;
              op_timeAgo := trim timeAgo;
              op_actionType := actionType;
              op_filePath := filePath;
              op_destPath := destPath;
              op_fullMessage := message |}
  | _ => None
  end.

Fixpoint operations_of_lines (lines : list jsstring) (index : nat)
    : option (list operation) :=
  match lines with
  | [] => Some []
  | line :: lines' =>
      match operation_of_line line index with
      | None => None
      | Some op =>
          match operations_of_lines lines' (S index) with
          | None => None
          | Some ops => Some (op :: ops)
          end
      end
  end.

Inductive list_result :=
| Listed (operations : list operation)
| ListError.

(** The handler of [listRecentFileOperations] on what [git log] printed,
    or on [None] when the command failed. *)
Definition listRecentFileOperations (git_log : option jsstring)
    : list_result :=
  match git_log with
  | None => ListError
  | Some stdout =>
      match trim stdout with
      | [] => Listed []
      | trimmed =>
          match operations_of_lines (split trimmed [LF]) 0 with
          | Some operations => Listed operations
          | None => ListError
          end
      end
  end.

(** ** Vocabulary of the specification *)

(** A text whose only line terminator is LF: it holds no carriage return. *)
Definition lf_text (x : jsstring) : Prop := Forall (fun c => c <> CR) x.

(** A text whose only line terminator is CRLF: every carriage return is
    followed by a line feed and every line feed follows a carriage return. *)
Inductive crlf_text : jsstring -> Prop :=
| crlf_nil : crlf_text []
| crlf_other c t : c <> CR -> c <> LF -> crlf_text t -> crlf_text (c :: t)
| crlf_pair t : crlf_text t -> crlf_text (CR :: LF :: t).

(** The two line-ending styles of the data model: LF and CRLF. *)
Definition consistent_line_endings (x : jsstring) : Prop :=
  lf_text x \/ crlf_text x.

(** A replacement text without any dollar sign: GetSubstitution leaves it
    as it is. *)
Definition dollar_free (t : jsstring) : Prop := Forall (fun c => c <> DOLLAR) t.

(** [r] inserted at every boundary of [text]: before its first code unit,
    between any two and after the last. *)
Definition insert_at_every_boundary (r text : jsstring) : jsstring :=
  r ++ flat_map (fun c => c :: r) text.

(** [replaced_every_occurrence s r text text']: [text'] is [text] with every
    occurrence of [s] replaced by [r], the occurrences being taken from left
    to right and not overlapping. *)
Inductive replaced_every_occurrence (s r : jsstring)
    : jsstring -> jsstring -> Prop :=
| reo_none text :
    includes text s = false -> replaced_every_occurrence s r text text
| reo_first pre post post' :
    (forall k, k < length pre ->
       startsWith (skipn k (pre ++ s ++ post)) s = false) ->
    replaced_every_occurrence s r post post' ->
    replaced_every_occurrence s r (pre ++ s ++ post) (pre ++ r ++ post').

(** Every block finds its search text in the working content of its turn. *)
Fixpoint found_in_turn (content : jsstring) (blocks : list block) : Prop :=
  match blocks with
  | [] => True
  | b :: blocks' =>
      includes (normalizeLineEndings content)
        (normalizeLineEndings (searchText b)) = true
      /\ found_in_turn
           (replaceWithLineEndingAwareness content (searchText b)
              (replaceText b)) blocks'
  end.

(** The number of blocks whose replacement changes the working content. *)
Fixpoint changing_blocks (content : jsstring) (blocks : list block) : nat :=
  match blocks with
  | [] => 0
  | b :: blocks' =>
      let content' :=
        replaceWithLineEndingAwareness content (searchText b) (replaceText b) in
      (if str_eqb content' content then 0 else 1)
      + changing_blocks content' blocks'
  end.

(** A block with a search text that is not empty and a replacement text
    that GetSubstitution takes literally. *)
Definition plain_block (b : block) : Prop :=
  normalizeLineEndings (searchText b) <> [] /\ dollar_free (replaceText b).

(** [applied_in_order content blocks final]: [final] comes from [content] by
    the blocks in order, each one replacing every occurrence of its search
    text in the working content, line endings apart, and leaving the line
    endings in the style detected from the working content it received. *)
Inductive applied_in_order : jsstring -> list block -> jsstring -> Prop :=
| aio_nil content : applied_in_order content [] content
| aio_cons content b content' blocks final :
    replaced_every_occurrence
      (normalizeLineEndings (searchText b))
      (normalizeLineEndings (replaceText b))
      (normalizeLineEndings content) (normalizeLineEndings content') ->
    content' = restoreLineEndings (usesCrlf content)
                 (normalizeLineEndings content') ->
    applied_in_order content' blocks final ->
    applied_in_order content (b :: blocks) final.

(** [starts_outside p b]: the text [b] does not begin with a code unit
    that [p] accepts, so a quantifier over [p] stops in front of it. *)
Definition starts_outside (p : N -> bool) (b : jsstring) : Prop :=
  match b with
  | [] => True
  | c :: _ => p c = false
  end.

(** A block whose texts are trimmed and not empty, with no equals sign in
    the search text and no plus sign in the replacement text. *)
Definition canonical_block (b : block) : Prop :=
  searchText b <> [] /\ replaceText b <> []
  /\ trim (searchText b) = searchText b
  /\ trim (replaceText b) = replaceText b
  /\ Forall (fun c => c <> 61%N) (searchText b)
  /\ Forall (fun c => c <> 43%N) (replaceText b).

(** The number of code units of [x] that are [u]. *)
Fixpoint occurrences (u : N) (x : jsstring) : nat :=
  match x with
  | [] => 0
  | c :: t => (if (c =? u)%N then 1 else 0) + occurrences u t
  end.




(** ** Sample inputs *)

Definition sample_path : jsstring := str "notes/a.md".

Definition no_preview (path content : jsstring) (w : world)
    : ApplyViewResult * world := (rejected, w).

Definition no_folders (folder : jsstring)
    (v : gmap jsstring abstract_file) : gmap jsstring abstract_file := v.

(** A vault outside version control that holds one file. *)
Definition one_file_world (content : jsstring) : world :=
  {| vault := {[ sample_path := TFile content ]};
     vault_faulty := false;
     autoAcceptEdits := true;
     git := None |}.

(** Three thousand code units without a line terminator, to pass the
    gate on the size of the file. *)
Definition padding : jsstring := repeat 122%N 3000.

(** One block of an instruction, in the format of the tool description. *)
Definition block_text (search replace : jsstring) : jsstring :=
  str "------- SEARCH" ++ [LF] ++ search ++ [LF] ++ str "=======" ++ [LF]
    ++ replace ++ [LF] ++ str "+++++++ REPLACE" ++ [LF].

(** An instruction made of blocks in the format of the tool description,
    each after a text of its own, with a closing text at the end. *)
Definition commented_instruction (items : list (jsstring * block))
    (closing : jsstring) : jsstring :=
  flat_map (fun item =>
              fst item
                ++ block_text (searchText (snd item)) (replaceText (snd item)))
    items ++ closing.




(** * Properties *)

(** ** Line endings *)

Section LineEndings.

Lemma replace_crlf_by_lf_cons c t :
  c <> CR -> replace_crlf_by_lf (c :: t) = c :: replace_crlf_by_lf t.
Proof.
  intros Hc. destruct t as [|d t']; [reflexivity|].
  cbn [replace_crlf_by_lf].
  destruct (N.eqb_spec c CR) as [->|_]; [contradiction|reflexivity].
Qed.

Lemma replace_crlf_by_lf_pair t :
  replace_crlf_by_lf (CR :: LF :: t) = LF :: replace_crlf_by_lf t.
Proof. reflexivity. Qed.

Lemma crlfCount_cons c t : c <> CR -> crlfCount (c :: t) = crlfCount t.
Proof.
  intros Hc. destruct t as [|d t']; [reflexivity|].
  cbn [crlfCount].
  destruct (N.eqb_spec c CR) as [->|_]; [contradiction|reflexivity].
Qed.

Lemma lf_text_normalize x : lf_text x -> normalizeLineEndings x = x.
Proof.
  unfold normalizeLineEndings, replace_cr_by_lf.
  induction 1 as [|c t Hc _ IH]; [reflexivity|].
  rewrite replace_crlf_by_lf_cons by assumption. cbn [List.map].
  rewrite IH. destruct (N.eqb_spec c CR); [contradiction|reflexivity].
Qed.

Lemma lf_text_crlfCount x : lf_text x -> crlfCount x = 0.
Proof.
  induction 1 as [|c t Hc _ IH]; [reflexivity|].
  rewrite crlfCount_cons; assumption.
Qed.

Lemma crlf_text_lfCount_from b x : crlf_text x -> lfCount_from b x = 0.
Proof.
  intros H. revert b. induction H as [|c t Hc Hl _ IH|t _ IH]; intros b.
  - reflexivity.
  - cbn [lfCount_from].
    destruct (N.eqb_spec c LF); [contradiction|].
    destruct (N.eqb_spec c CR); [contradiction|].
    cbn. apply IH.
  - cbn. apply IH.
Qed.

Lemma crlf_text_lfCount x : crlf_text x -> lfCount x = 0.
Proof. apply crlf_text_lfCount_from. Qed.

Lemma crlf_text_restore x :
  crlf_text x -> replace_lf_by_crlf (normalizeLineEndings x) = x.
Proof.
  unfold normalizeLineEndings, replace_cr_by_lf, replace_lf_by_crlf.
  induction 1 as [|c t Hc Hl _ IH|t _ IH].
  - reflexivity.
  - rewrite replace_crlf_by_lf_cons by assumption. cbn [List.map flat_map].
    destruct (N.eqb_spec c CR); [contradiction|].
    destruct (N.eqb_spec c LF); [contradiction|].
    cbn [app]. now rewrite IH.
  - rewrite replace_crlf_by_lf_pair. cbn [List.map flat_map].
    change (LF =? CR)%N with false. cbn iota.
    change (LF =? LF)%N with true. cbn iota. cbn [app]. now rewrite IH.
Qed.

(** A CRLF text without any CRLF has no line terminator at all. *)
Lemma crlf_text_no_terminator x :
  crlf_text x -> crlfCount x = 0 -> lf_text x.
Proof.
  induction 1 as [|c t Hc Hl _ IH|t _ IH]; intros Hn.
  - constructor.
  - rewrite crlfCount_cons in Hn by assumption.
    constructor; [assumption|]. now apply IH.
  - discriminate Hn.
Qed.

Lemma normalize_no_cr x : lf_text (normalizeLineEndings x).
Proof.
  unfold normalizeLineEndings, replace_cr_by_lf, lf_text.
  apply List.Forall_forall. intros c Hin. apply List.in_map_iff in Hin.
  destruct Hin as (d & <- & _).
  destruct (N.eqb_spec d CR); [discriminate|assumption].
Qed.

Lemma lf_text_to_crlf x : lf_text x -> crlf_text (replace_lf_by_crlf x).
Proof.
  unfold replace_lf_by_crlf.
  induction 1 as [|c t Hc _ IH]; cbn [flat_map]; [constructor|].
  destruct (N.eqb_spec c LF) as [->|Hl]; cbn [app].
  - now apply crlf_pair.
  - now apply crlf_other.
Qed.

(** Counting the terminators: normalizing turns every carriage return
    and every line feed that follows none into one line feed. *)
Lemma occurrences_replace_cr z :
  occurrences LF (replace_cr_by_lf z) = occurrences CR z + occurrences LF z.
Proof.
  unfold replace_cr_by_lf. induction z as [|c t IH]; [reflexivity|].
  cbn [List.map occurrences]. rewrite IH.
  destruct (N.eqb_spec c CR) as [->|Hc].
  - change (LF =? LF)%N with true. change (CR =? LF)%N with false.
    cbn iota. lia.
  - destruct (c =? LF)%N; lia.
Qed.

Lemma occurrences_replace_crlf x :
  occurrences CR (replace_crlf_by_lf x) + occurrences LF (replace_crlf_by_lf x)
  = occurrences CR x + lfCount x.
Proof.
  unfold lfCount.
  enough (H : (occurrences CR (replace_crlf_by_lf x)
               + occurrences LF (replace_crlf_by_lf x)
               = occurrences CR x + lfCount_from false x)
              /\ forall c,
                   occurrences CR (replace_crlf_by_lf (c :: x))
                   + occurrences LF (replace_crlf_by_lf (c :: x))
                   = occurrences CR (c :: x) + lfCount_from false (c :: x))
    by apply H.
  induction x as [|d t [IH1 IH2]].
  - split; [reflexivity|]. intros c. cbn [replace_crlf_by_lf occurrences
                                            lfCount_from negb andb].
    rewrite andb_true_r. lia.
  - split; [apply IH2|]. intros c.
    change (replace_crlf_by_lf (c :: d :: t))
      with (if (c =? CR)%N && (d =? LF)%N then LF :: replace_crlf_by_lf t
            else c :: replace_crlf_by_lf (d :: t)).
    destruct (N.eqb_spec c CR) as [->|Hc]; cbn [andb].
    + destruct (N.eqb_spec d LF) as [->|Hd].
      * cbn [occurrences lfCount_from].
        change (LF =? CR)%N with false. change (LF =? LF)%N with true.
        change (CR =? CR)%N with true. change (CR =? LF)%N with false.
        cbn [negb andb]. cbn iota. lia.
      * pose proof (IH2 d) as H. apply N.eqb_neq in Hd.
        set (z := replace_crlf_by_lf (d :: t)) in *.
        cbn [occurrences lfCount_from] in *. rewrite Hd in *.
        change (CR =? CR)%N with true. change (CR =? LF)%N with false.
        destruct (d =? CR)%N; cbn [negb andb] in *; cbn iota in *; lia.
    + pose proof (IH2 d) as H. apply N.eqb_neq in Hc.
      set (z := replace_crlf_by_lf (d :: t)) in *.
      cbn [occurrences lfCount_from] in *. rewrite Hc in *.
      destruct (c =? LF)%N, (d =? LF)%N, (d =? CR)%N;
        cbn [negb andb] in *; cbn iota in *; lia.
Qed.

Lemma occurrences_normalize x :
  occurrences LF (normalizeLineEndings x) = occurrences CR x + lfCount x.
Proof.
  unfold normalizeLineEndings.
  now rewrite occurrences_replace_cr, occurrences_replace_crlf.
Qed.

(** In a text without carriage return every line feed counts, and each
    becomes one CRLF when the CRLF style is restored. *)
Lemma lf_text_lfCount x : lf_text x -> lfCount x = occurrences LF x.
Proof.
  unfold lfCount. induction 1 as [|c t Hc _ IH]; [reflexivity|].
  cbn [lfCount_from occurrences negb]. rewrite andb_true_r.
  destruct (N.eqb_spec c CR) as [|_]; [contradiction|]. now rewrite IH.
Qed.

Lemma lf_text_restored_pairs x :
  lf_text x -> crlfCount (replace_lf_by_crlf x) = occurrences LF x.
Proof.
  unfold replace_lf_by_crlf.
  induction 1 as [|c t Hc _ IH]; [reflexivity|].
  cbn [flat_map occurrences].
  destruct (N.eqb_spec c LF) as [->|Hl]; cbn [app].
  - change (crlfCount (CR :: LF :: flat_map
                         (fun c => if (c =? LF)%N then [CR; LF] else [c]) t))
      with (S (crlfCount (flat_map
                 (fun c => if (c =? LF)%N then [CR; LF] else [c]) t))).
    now rewrite IH.
  - rewrite crlfCount_cons by assumption. now rewrite IH.
Qed.

End LineEndings.

(** ** String primitives *)

Section Strings.

Lemma str_eqb_eq a b : str_eqb a b = true <-> a = b.
Proof.
  revert b. induction a as [|x a IH]; intros [|y b]; cbn; try easy.
  rewrite andb_true_iff, N.eqb_eq, IH. split.
  - now intros [-> ->].
  - intros [= -> ->]. easy.
Qed.

Lemma str_eqb_refl a : str_eqb a a = true.
Proof. now apply str_eqb_eq. Qed.

Lemma startsWith_nil l : startsWith l [] = true.
Proof. now destruct l. Qed.

Lemma startsWith_spec l s :
  startsWith l s = true <-> exists post, l = s ++ post.
Proof.
  revert l. induction s as [|x s IH]; intros l.
  - rewrite startsWith_nil. split; [intros _; now exists l|reflexivity].
  - destruct l as [|y l]; cbn [startsWith].
    + split; [discriminate|]. intros (post & H). discriminate H.
    + rewrite andb_true_iff, N.eqb_eq, IH. split.
      * intros (-> & post & ->). now exists post.
      * intros (post & [= -> ->]). split; [easy|now exists post].
Qed.

Lemma startsWith_app s post : startsWith (s ++ post) s = true.
Proof. apply startsWith_spec. now exists post. Qed.

Lemma includes_nil l : includes l [] = true.
Proof. destruct l; reflexivity. Qed.

Lemma includes_cons c l s :
  includes (c :: l) s = startsWith (c :: l) s || includes l s.
Proof. reflexivity. Qed.

Lemma includes_spec l s :
  includes l s = true <-> exists pre post, l = pre ++ s ++ post.
Proof.
  induction l as [|c l IH].
  - change (includes [] s) with (startsWith [] s || false).
    rewrite orb_false_r, startsWith_spec. split.
    + intros (post & H). now exists [], post.
    + intros (pre & post & H). destruct pre as [|? ?]; [|discriminate H].
      now exists post.
  - rewrite includes_cons, orb_true_iff, startsWith_spec, IH. split.
    + intros [(post & H)|(pre & post & H)].
      * now exists [], post.
      * exists (c :: pre), post. cbn. now rewrite H.
    + intros (pre & post & H). destruct pre as [|? pre].
      * left. now exists post.
      * right. injection H as -> ->. now exists pre, post.
Qed.

Lemma GetSubstitution_dollar_free matched whole position template :
  dollar_free template ->
  GetSubstitution matched whole position template = template.
Proof.
  induction 1 as [|c t Hc _ IH]; [reflexivity|].
  cbn [GetSubstitution].
  destruct (N.eqb_spec c DOLLAR); [contradiction|]. now rewrite IH.
Qed.

Lemma Forall_firstn_N (P : N -> Prop) n (l : jsstring) :
  Forall P l -> Forall P (firstn n l).
Proof.
  intros H. revert n. induction H; intros [|n]; cbn; constructor; auto.
Qed.

Lemma Forall_skipn_N (P : N -> Prop) n (l : jsstring) :
  Forall P l -> Forall P (skipn n l).
Proof.
  intros H. revert n. induction H; intros [|n]; cbn; auto.
Qed.

Lemma Forall_app_N (P : N -> Prop) (a b : jsstring) :
  Forall P a -> Forall P b -> Forall P (a ++ b).
Proof. induction 1; cbn; auto. Qed.

(** What GetSubstitution writes comes from the template, the match or the
    string searched. *)
Lemma GetSubstitution_Forall (P : N -> Prop) matched whole position template :
  Forall P matched -> Forall P whole -> Forall P template ->
  Forall P (GetSubstitution matched whole position template).
Proof.
  intros Hm Hw. remember (length template) as n eqn:Hn.
  revert template Hn.
  induction n as [n IH] using lt_wf_ind. intros template -> Ht.
  destruct template as [|c rest]; [constructor|].
  inversion Ht as [|? ? Hc Hrest]; subst.
  assert (Hrec : Forall P (GetSubstitution matched whole position rest)).
  { eapply IH; [|reflexivity|assumption]. cbn. lia. }
  cbn [GetSubstitution].
  destruct (c =? DOLLAR)%N; [|now constructor].
  destruct rest as [|d rest']; [now constructor|].
  inversion Hrest as [|? ? Hd Hrest']; subst.
  assert (Hrec' : Forall P (GetSubstitution matched whole position rest')).
  { eapply IH; [|reflexivity|assumption]. cbn. lia. }
  destruct (N.eqb_spec d DOLLAR) as [->|_]; [now constructor|].
  destruct (d =? BACKTICK)%N.
  { apply Forall_app_N; [now apply Forall_firstn_N|assumption]. }
  destruct (d =? AMPERSAND)%N; [now apply Forall_app_N|].
  destruct (d =? QUOTE)%N.
  { apply Forall_app_N; [now apply Forall_skipn_N|assumption]. }
  now constructor.
Qed.

Lemma replaceAll_scan_Forall (P : N -> Prop) whole s template pos skip l :
  Forall P whole -> Forall P s -> Forall P template -> Forall P l ->
  Forall P (replaceAll_scan whole s template pos skip l).
Proof.
  intros Hw Hs Ht Hl. revert pos skip.
  induction Hl as [|c t Hc Hl IH]; intros pos skip.
  - destruct skip; cbn [replaceAll_scan]; [|constructor].
    destruct (startsWith [] s); [|constructor].
    rewrite app_nil_r. now apply GetSubstitution_Forall.
  - destruct skip as [|k]; cbn [replaceAll_scan]; [|apply IH].
    destruct (startsWith (c :: t) s).
    + apply Forall_app_N; [now apply GetSubstitution_Forall|].
      destruct s; [constructor; [assumption|]|]; apply IH.
    + constructor; [assumption|apply IH].
Qed.

Lemma replaceAll_Forall (P : N -> Prop) whole s template :
  Forall P whole -> Forall P s -> Forall P template ->
  Forall P (replaceAll whole s template).
Proof. intros. now apply replaceAll_scan_Forall. Qed.

End Strings.

(** ** [replaceAll] with a literal replacement *)

Section ReplaceAll.

Variables whole s template : jsstring.
Hypothesis template_literal : dollar_free template.

Lemma scan_skip pos skip l :
  skip <= length l ->
  replaceAll_scan whole s template pos skip l
  = replaceAll_scan whole s template (pos + skip) 0 (skipn skip l).
Proof.
  revert pos l. induction skip as [|k IH]; intros pos l Hk.
  - now rewrite Nat.add_0_r.
  - destruct l as [|c t]; [cbn in Hk; lia|].
    cbn [replaceAll_scan skipn]. rewrite IH by (cbn in Hk; lia).
    f_equal. lia.
Qed.

Lemma scan_nomatch pos c t :
  startsWith (c :: t) s = false ->
  replaceAll_scan whole s template pos 0 (c :: t)
  = c :: replaceAll_scan whole s template (S pos) 0 t.
Proof. intros H. cbn [replaceAll_scan]. now rewrite H. Qed.

Lemma scan_nil pos :
  s <> [] -> replaceAll_scan whole s template pos 0 [] = [].
Proof. destruct s; [easy|reflexivity]. Qed.

Lemma scan_match pos post :
  s <> [] ->
  replaceAll_scan whole s template pos 0 (s ++ post)
  = template ++ replaceAll_scan whole s template (pos + length s) 0 post.
Proof.
  intros Hs. pose proof (startsWith_app s post) as Hm.
  pose proof (scan_skip (S pos) (length s - 1) (skipn 1 (s ++ post))) as Hk.
  destruct s as [|x s']; [easy|].
  cbn [app replaceAll_scan] in *. rewrite Hm.
  rewrite GetSubstitution_dollar_free by assumption. f_equal.
  change (length (x :: s') - 1) with (length s' - 0) in Hk.
  change (skipn 1 (x :: s' ++ post)) with (s' ++ post) in Hk.
  rewrite Nat.sub_0_r in Hk. rewrite Hk by (rewrite length_app; lia).
  rewrite skipn_app, skipn_all, Nat.sub_diag. cbn [app skipn length].
  now rewrite Nat.add_succ_r.
Qed.

Lemma replaced_cons c t t' :
  startsWith (c :: t) s = false ->
  replaced_every_occurrence s template t t' ->
  replaced_every_occurrence s template (c :: t) (c :: t').
Proof.
  intros Hc H. revert Hc.
  destruct H as [text Hnone|pre post post' Hleft Hrest]; intros Hc.
  - apply reo_none. now rewrite includes_cons, Hc, Hnone.
  - apply (reo_first s template (c :: pre) post post'); [|assumption].
    intros [|k] Hk; [exact Hc|]. apply Hleft. cbn in Hk. lia.
Qed.

Lemma scan_spec n : forall l pos,
  length l <= n -> s <> [] ->
  replaced_every_occurrence s template l
    (replaceAll_scan whole s template pos 0 l).
Proof.
  induction n as [n IH] using lt_wf_ind. intros l pos Hn Hs.
  destruct l as [|c t].
  - rewrite scan_nil by assumption. apply reo_none.
    destruct s; [easy|reflexivity].
  - destruct (startsWith (c :: t) s) eqn:Hm.
    + apply startsWith_spec in Hm. destruct Hm as (post & Hm).
      rewrite Hm, scan_match by assumption.
      apply (reo_first s template [] post); [cbn; lia|].
      apply (IH (length post)); [|lia|assumption].
      apply (f_equal (@length N)) in Hm. rewrite length_app in Hm.
      destruct s; [easy|]. cbn in Hm, Hn. lia.
    + rewrite scan_nomatch by assumption.
      apply replaced_cons; [assumption|].
      apply (IH (length t)); [cbn in Hn; lia|lia|assumption].
Qed.

(** With a search text that is not empty, [replaceAll] replaces every
    occurrence of it. *)
Lemma replaceAll_spec :
  s <> [] ->
  replaced_every_occurrence s template whole (replaceAll whole s template).
Proof. intros Hs. now apply (scan_spec (length whole)). Qed.

End ReplaceAll.

Lemma scan_absent whole s template l : forall pos,
  includes l s = false ->
  replaceAll_scan whole s template pos 0 l = l.
Proof.
  induction l as [|c t IH]; intros pos H.
  - change (includes [] s) with (startsWith [] s || false) in H.
    rewrite orb_false_r in H. cbn [replaceAll_scan]. now rewrite H.
  - rewrite includes_cons in H. apply orb_false_iff in H.
    destruct H as [Hc Ht]. rewrite scan_nomatch by assumption.
    now rewrite IH.
Qed.

(** Without an occurrence of the search text, [replaceAll] gives the
    string back, whatever the replacement text is. *)
Lemma replaceAll_absent whole s template :
  includes whole s = false -> replaceAll whole s template = whole.
Proof. apply scan_absent. Qed.

(** With the empty search text, [replaceAll] writes the replacement at
    every boundary. *)
Lemma replaceAll_empty whole template :
  dollar_free template ->
  replaceAll whole [] template = insert_at_every_boundary template whole.
Proof.
  intros Ht. unfold replaceAll, insert_at_every_boundary.
  generalize 0 at 1. generalize whole at 1 as w.
  induction whole as [|c t IH]; intros w pos; cbn [replaceAll_scan startsWith].
  - now rewrite GetSubstitution_dollar_free.
  - rewrite GetSubstitution_dollar_free by assumption.
    cbn [flat_map]. now rewrite IH.
Qed.

(** The description of the replacement leaves no choice: the occurrence
    replaced first is the leftmost one. *)
Lemma leftmost_unique s pre1 post1 pre2 post2 :
  pre1 ++ s ++ post1 = pre2 ++ s ++ post2 ->
  (forall k, k < length pre2 ->
     startsWith (skipn k (pre2 ++ s ++ post2)) s = false) ->
  length pre2 <= length pre1.
Proof.
  intros Heq Hleft. destruct (Nat.le_gt_cases (length pre2) (length pre1))
    as [Hle|Hlt]; [assumption|].
  specialize (Hleft (length pre1) Hlt). rewrite <- Heq in Hleft.
  rewrite skipn_app, skipn_all, Nat.sub_diag in Hleft.
  change (startsWith (s ++ post1) s = false) in Hleft.
  now rewrite startsWith_app in Hleft.
Qed.

Lemma replaced_every_occurrence_functional s r text t1 t2 :
  replaced_every_occurrence s r text t1 ->
  replaced_every_occurrence s r text t2 ->
  t1 = t2.
Proof.
  intros H1. revert t2.
  induction H1 as [text Hnone|pre post post' Hleft Hrest IH]; intros t2 H2.
  - inversion H2 as [? _|pre2 post2 post2' _ _ Heq]; subst; [reflexivity|].
    assert (Hin : includes (pre2 ++ s ++ post2) s = true)
      by (apply includes_spec; eauto).
    congruence.
  - inversion H2 as [? Hnone|pre2 post2 post2' Hleft2 Hrest2 Heq]; subst.
    + assert (Hin : includes (pre ++ s ++ post) s = true)
        by (apply includes_spec; eauto).
      congruence.
    + assert (Hlen : length pre = length pre2).
      { apply Nat.le_antisymm.
        - now apply (leftmost_unique s pre2 post2 pre post).
        - now apply (leftmost_unique s pre post pre2 post2). }
      apply app_inj_1 in Heq; [|now symmetry].
      destruct Heq as [-> Heq]. apply app_inv_head in Heq. subst post2.
      now rewrite (IH _ Hrest2).
Qed.

(** ** The parser terminates *)

Section ParserFuel.

Context {R : Type}.

Lemma exactly_inv n p inp (k : jsstring -> option R) x :
  exactly n p inp k = Some x ->
  exists rest, k rest = Some x /\ length rest + n <= length inp.
Proof.
  revert inp. induction n as [|n IH]; intros inp H; cbn in H.
  - exists inp. split; [assumption|lia].
  - destruct inp as [|c t]; [discriminate|].
    destruct (p c); [|discriminate].
    destruct (IH _ H) as (rest & Hk & Hlen).
    exists rest. split; [assumption|cbn; lia].
Qed.

Lemma greedy_star_inv p inp (k : jsstring -> option R) x :
  greedy_star p inp k = Some x ->
  exists rest, k rest = Some x /\ length rest <= length inp.
Proof.
  induction inp as [|c t IH]; intros H; cbn in H.
  - exists []. split; [assumption|lia].
  - destruct (p c).
    + destruct (greedy_star p t k) as [y|] eqn:Hg.
      * injection H as ->. destruct (IH eq_refl) as (rest & Hk & Hlen).
        exists rest. split; [assumption|cbn; lia].
      * exists (c :: t). split; [assumption|lia].
    + exists (c :: t). split; [assumption|lia].
Qed.

Lemma lazy_star_inv p inp (k : jsstring -> option R) x :
  lazy_star p inp k = Some x ->
  exists rest, k rest = Some x /\ length rest <= length inp.
Proof.
  induction inp as [|c t IH]; intros H; cbn in H.
  - destruct (k []) as [y|] eqn:Hk; [|discriminate].
    injection H as ->. exists []. split; [assumption|lia].
  - destruct (k (c :: t)) as [y|] eqn:Hk.
    + injection H as ->. exists (c :: t). split; [assumption|lia].
    + destruct (p c); [|discriminate].
      destruct (IH H) as (rest & Hk' & Hlen).
      exists rest. split; [assumption|cbn; lia].
Qed.

(** A successful match went through the continuation, with what the
    pattern left of its input. *)
Lemma rmatch_inv r : forall inp caps (k : jsstring -> list jsstring -> option R) x,
  rmatch r inp caps k = Some x ->
  exists rest caps',
    k rest caps' = Some x /\ length rest + min_length r <= length inp.
Proof.
  induction r as [|cl|r1 IH1 r2 IH2|r' IH|min cl|cl|r' IH];
    intros inp caps k x H; cbn [rmatch min_length] in *.
  - exists inp, caps. split; [assumption|lia].
  - destruct inp as [|c t]; [discriminate|].
    destruct (in_class cl c); [|discriminate].
    exists t, caps. split; [assumption|cbn; lia].
  - destruct (IH1 _ _ _ _ H) as (rest1 & caps1 & H1 & Hlen1).
    destruct (IH2 _ _ _ _ H1) as (rest2 & caps2 & H2 & Hlen2).
    exists rest2, caps2. split; [assumption|lia].
  - destruct (rmatch r' inp caps k) as [y|] eqn:Hr.
    + injection H as ->. destruct (IH _ _ _ _ Hr) as (rest & caps' & Hk & Hlen).
      exists rest, caps'. split; [assumption|lia].
    + exists inp, caps. split; [assumption|lia].
  - destruct (exactly_inv _ _ _ _ _ H) as (rest & H1 & Hlen1).
    destruct (greedy_star_inv _ _ _ _ H1) as (rest' & H2 & Hlen2).
    exists rest', caps. split; [assumption|lia].
  - destruct (lazy_star_inv _ _ _ _ H) as (rest & H1 & Hlen1).
    exists rest, caps. split; [assumption|lia].
  - destruct (IH _ _ _ _ H) as (rest & caps' & Hk & Hlen).
    eexists _, _. split; [exact Hk|assumption].
Qed.

End ParserFuel.

(** Every match of [blockRegex] takes code units off the input. *)
Lemma exec_shorter inp caps rest :
  exec inp = Some (caps, rest) -> length rest < length inp.
Proof.
  induction inp as [|c t IH]; intros H; cbn [exec] in H.
  - destruct (rmatch blockRegex [] [] _) as [m|] eqn:Hm; [|discriminate].
    apply rmatch_inv in Hm. destruct Hm as (? & ? & _ & Hlen).
    cbn in Hlen. lia.
  - destruct (rmatch blockRegex (c :: t) [] _) as [m|] eqn:Hm.
    + injection H as ->. apply rmatch_inv in Hm.
      destruct Hm as (rest' & caps' & [= <- <-] & Hlen).
      cbn in Hlen. cbn [length]. lia.
    + specialize (IH H). cbn [length]. lia.
Qed.

(** Any fuel above the length of the input gives the same blocks: the loop
    of the parser never stops for want of fuel. *)
Lemma parse_loop_fuel fuel1 : forall fuel2 inp,
  length inp < fuel1 -> length inp < fuel2 ->
  parse_loop fuel1 inp = parse_loop fuel2 inp.
Proof.
  induction fuel1 as [|f1 IH]; intros fuel2 inp H1 H2; [lia|].
  destruct fuel2 as [|f2]; [lia|]. cbn [parse_loop].
  destruct (exec inp) as [[caps rest]|] eqn:He; [|reflexivity].
  apply exec_shorter in He. f_equal. apply IH; lia.
Qed.

(** The parser is the loop of the source: the blocks of a text are the
    block of its first match, then the blocks of what follows the match. *)
Lemma parseSearchReplaceBlocks_unfold diff :
  parseSearchReplaceBlocks diff
  = match exec diff with
    | None => []
    | Some (caps, rest) =>
        {| searchText := trim (nth 0 caps []);
           replaceText := trim (nth 1 caps []) |}
          :: parseSearchReplaceBlocks rest
    end.
Proof.
  unfold parseSearchReplaceBlocks.
  change (parse_loop (S (length diff)) diff)
    with (match exec diff with
          | None => []
          | Some (caps, rest) =>
              {| searchText := trim (nth 0 caps []);
                 replaceText := trim (nth 1 caps []) |}
                :: parse_loop (length diff) rest
          end).
  destruct (exec diff) as [[caps rest]|] eqn:He; [|reflexivity].
  apply exec_shorter in He. f_equal. apply parse_loop_fuel; lia.
Qed.

(** ** The loop over the blocks *)

Section Loop.

Lemma replace_crlf_by_lf_eq c d t :
  replace_crlf_by_lf (c :: d :: t)
  = if (c =? CR)%N && (d =? LF)%N then LF :: replace_crlf_by_lf t
    else c :: replace_crlf_by_lf (d :: t).
Proof. reflexivity. Qed.

Lemma replace_crlf_by_lf_Forall (P : N -> Prop) x :
  Forall P x -> Forall P (replace_crlf_by_lf x).
Proof.
  remember (length x) as n eqn:Hn. revert x Hn.
  induction n as [n IH] using lt_wf_ind. intros x -> Hx.
  destruct x as [|c [|d t]]; [constructor|assumption|].
  inversion Hx as [|? ? Hc Hx']; subst.
  inversion Hx' as [|? ? Hd Ht]; subst.
  rewrite replace_crlf_by_lf_eq.
  destruct (c =? CR)%N; cbn [andb];
    [destruct (N.eqb_spec d LF) as [->|_]|]; constructor; try assumption;
    (eapply IH; [|reflexivity|assumption]); cbn; lia.
Qed.

(** A property of the code units of a text that LF has holds of the
    normalized text. *)
Lemma normalize_Forall (P : N -> Prop) x :
  P LF -> Forall P x -> Forall P (normalizeLineEndings x).
Proof.
  intros Hlf Hx. unfold normalizeLineEndings, replace_cr_by_lf.
  apply replace_crlf_by_lf_Forall in Hx.
  induction Hx as [|c t Hc _ IH]; cbn [List.map]; constructor; [|assumption].
  now destruct (c =? CR)%N.
Qed.

Lemma normalize_dollar_free r :
  dollar_free r -> dollar_free (normalizeLineEndings r).
Proof. apply normalize_Forall. discriminate. Qed.

Lemma normalize_restore b y :
  lf_text y -> normalizeLineEndings (restoreLineEndings b y) = y.
Proof.
  intros Hy. destruct b; cbn [restoreLineEndings];
    [|now apply lf_text_normalize].
  unfold normalizeLineEndings, replace_cr_by_lf, replace_lf_by_crlf.
  induction Hy as [|c t Hc _ IH]; [reflexivity|]. cbn [flat_map].
  destruct (N.eqb_spec c LF) as [->|Hl]; cbn [app].
  - rewrite replace_crlf_by_lf_pair. cbn [List.map].
    change (LF =? CR)%N with false. cbn iota. now rewrite IH.
  - rewrite replace_crlf_by_lf_cons by assumption. cbn [List.map].
    destruct (N.eqb_spec c CR); [contradiction|]. now rewrite IH.
Qed.

Lemma replaceAll_normalized_lf content s r :
  lf_text (replaceAll (normalizeLineEndings content)
             (normalizeLineEndings s) (normalizeLineEndings r)).
Proof. apply replaceAll_Forall; apply normalize_no_cr. Qed.

(** Line endings apart, the aware replacement is [replaceAll]. *)
Lemma aware_normalize content s r :
  normalizeLineEndings (replaceWithLineEndingAwareness content s r)
  = replaceAll (normalizeLineEndings content)
      (normalizeLineEndings s) (normalizeLineEndings r).
Proof.
  unfold replaceWithLineEndingAwareness. apply normalize_restore.
  apply replaceAll_normalized_lf.
Qed.

Lemma aware_restore content s r :
  replaceWithLineEndingAwareness content s r
  = restoreLineEndings (usesCrlf content)
      (normalizeLineEndings (replaceWithLineEndingAwareness content s r)).
Proof. now rewrite aware_normalize. Qed.

(** The result of one aware replacement is all in the style detected from
    the content it was given. *)
Lemma aware_style content s r :
  if usesCrlf content
  then crlf_text (replaceWithLineEndingAwareness content s r)
  else lf_text (replaceWithLineEndingAwareness content s r).
Proof.
  unfold replaceWithLineEndingAwareness.
  pose proof (replaceAll_normalized_lf content s r) as Hlf.
  destruct (usesCrlf content); cbn [restoreLineEndings];
    [now apply lf_text_to_crlf|assumption].
Qed.

Lemma apply_block_found content n b :
  includes (normalizeLineEndings content)
    (normalizeLineEndings (searchText b)) = true ->
  apply_block content n b
  = let content' :=
      replaceWithLineEndingAwareness content (searchText b) (replaceText b) in
    inr (content', if str_eqb content' content then n else S n).
Proof. intros H. unfold apply_block. now rewrite H. Qed.

Lemma apply_block_not_found content n b :
  includes (normalizeLineEndings content)
    (normalizeLineEndings (searchText b)) = false ->
  includes (normalizeLineEndings content)
    (trimEnd (normalizeLineEndings (searchText b))) = false ->
  apply_block content n b = inl (searchText b).
Proof. intros H1 H2. unfold apply_block. now rewrite H1, H2. Qed.

(** Each turn of the loop is one aware replacement on the working content
    it received. *)
Lemma apply_block_inr content n b out n' :
  apply_block content n b = inr (out, n') ->
  exists s r, out = replaceWithLineEndingAwareness content s r.
Proof.
  unfold apply_block. intros H.
  destruct (includes _ (normalizeLineEndings (searchText b))).
  - injection H as <- _. eauto.
  - destruct (includes _ (trimEnd _)); [|discriminate].
    injection H as <- _. eauto.
Qed.

Lemma apply_blocks_app content n blocks1 blocks2 :
  apply_blocks content n (blocks1 ++ blocks2)
  = match apply_blocks content n blocks1 with
    | inl notFound => inl notFound
    | inr (content', n') => apply_blocks content' n' blocks2
    end.
Proof.
  revert content n. induction blocks1 as [|b bs IH]; intros content n.
  - reflexivity.
  - cbn [app apply_blocks].
    destruct (apply_block content n b) as [e|[c' n']]; [reflexivity|apply IH].
Qed.

End Loop.

(** * The claims *)

(** ** Line-ending style (C6, C10, C1) *)

(** C6. For every text [x] in a single line-ending style, LF or CRLF,
    normalizing [x] and then restoring the style detected from [x] gives
    [x] back: restore (normalize x) (detect x) = x. *)
Theorem restore_normalize_roundtrip x :
  consistent_line_endings x ->
  restoreLineEndings (usesCrlf x) (normalizeLineEndings x) = x.
Proof.
  intros [Hlf|Hcrlf]; unfold usesCrlf.
  - rewrite (lf_text_crlfCount x Hlf).
    change (lfCount x <? 0) with false. now apply lf_text_normalize.
  - rewrite (crlf_text_lfCount x Hcrlf).
    destruct (crlfCount x) as [|n] eqn:Hn.
    + apply lf_text_normalize. now apply crlf_text_no_terminator.
    + now apply crlf_text_restore.
Qed.

Lemma restore_normalize_roundtrip_witness :
  let x := str "a" ++ [CR; LF] ++ str "b" ++ [CR; LF] in
  consistent_line_endings x
  /\ restoreLineEndings (usesCrlf x) (normalizeLineEndings x) = x.
Proof.
  assert (H : consistent_line_endings
                (str "a" ++ [CR; LF] ++ str "b" ++ [CR; LF])).
  { right. apply crlf_other; [discriminate|discriminate|].
    apply crlf_pair. apply crlf_other; [discriminate|discriminate|].
    apply crlf_pair. apply crlf_nil. }
  split; [exact H|]. exact (restore_normalize_roundtrip _ H).
Defined.

(** A text that ends its lines with a lone carriage return is in neither
    style: the carriage returns come back as line feeds. *)
Example lone_cr_not_restored :
  let x := str "a" ++ [CR] ++ str "b" in
  restoreLineEndings (usesCrlf x) (normalizeLineEndings x)
  = str "a" ++ [LF] ++ str "b".
Proof. reflexivity. Qed.

(** The two styles are the only texts that come back: a text that
    normalizing and restoring leave as it is has no carriage return, or has
    CRLF for its only terminator. *)
Lemma roundtrip_only_consistent x :
  restoreLineEndings (usesCrlf x) (normalizeLineEndings x) = x ->
  consistent_line_endings x.
Proof.
  intros H. pose proof (normalize_no_cr x) as Hlf.
  destruct (usesCrlf x); cbn [restoreLineEndings] in H; rewrite <- H.
  - right. now apply lf_text_to_crlf.
  - now left.
Qed.

(** C10. For every content whose detected style is CRLF, the result of one
    line-ending aware replacement has no LF that does not follow a CR, and
    no CR that is not followed by an LF: every line terminator of the
    result is CRLF, whatever terminators the content had in the parts the
    replacement did not touch. Line endings apart, the result is the
    content with the replacement made, so that the terminators of the
    content are all there, as CRLF: when the search text does not occur at
    all, the result is the content with each of its carriage returns and
    each of its bare line feeds turned into one CRLF. *)
Theorem crlf_content_gives_crlf_result content s r :
  usesCrlf content = true ->
  crlf_text (replaceWithLineEndingAwareness content s r)
  /\ lfCount (replaceWithLineEndingAwareness content s r) = 0
  /\ normalizeLineEndings (replaceWithLineEndingAwareness content s r)
     = replaceAll (normalizeLineEndings content)
         (normalizeLineEndings s) (normalizeLineEndings r)
  /\ (normalizeLineEndings s <> [] -> dollar_free r ->
      replaced_every_occurrence
        (normalizeLineEndings s) (normalizeLineEndings r)
        (normalizeLineEndings content)
        (normalizeLineEndings (replaceWithLineEndingAwareness content s r)))
  /\ (includes (normalizeLineEndings content) (normalizeLineEndings s) = false ->
      normalizeLineEndings (replaceWithLineEndingAwareness content s r)
      = normalizeLineEndings content
      /\ crlfCount (replaceWithLineEndingAwareness content s r)
         = occurrences CR content + lfCount content).
Proof.
  intros Hstyle. pose proof (aware_style content s r) as H.
  rewrite Hstyle in H.
  split; [assumption|]. split; [now apply crlf_text_lfCount|].
  split; [apply aware_normalize|]. split.
  - intros Hs Hr. rewrite aware_normalize.
    apply replaceAll_spec; [|assumption]. now apply normalize_dollar_free.
  - intros Habsent. rewrite aware_normalize.
    rewrite replaceAll_absent by assumption. split; [reflexivity|].
    unfold replaceWithLineEndingAwareness. rewrite Hstyle.
    rewrite replaceAll_absent by assumption. cbn [restoreLineEndings].
    rewrite lf_text_restored_pairs by apply normalize_no_cr.
    apply occurrences_normalize.
Qed.

Lemma crlf_content_gives_crlf_result_witness :
  let content :=
    str "a" ++ [CR; LF] ++ str "b" ++ [LF] ++ str "c" ++ [CR; LF] ++ str "d" in
  let result := replaceWithLineEndingAwareness content (str "zz") (str "x") in
  usesCrlf content = true
  /\ crlf_text result
  /\ lfCount result = 0
  /\ normalizeLineEndings result
     = str "a" ++ [LF] ++ str "b" ++ [LF] ++ str "c" ++ [LF] ++ str "d"
  /\ crlfCount result = 3.
Proof.
  cbv zeta.
  destruct (crlf_content_gives_crlf_result
              (str "a" ++ [CR; LF] ++ str "b" ++ [LF] ++ str "c" ++ [CR; LF]
                 ++ str "d") (str "zz") (str "x") eq_refl)
    as (Hcrlf & Hlf & _ & _ & Habsent).
  destruct (Habsent eq_refl) as (Hsame & Hcount).
  split; [reflexivity|]. split; [exact Hcrlf|]. split; [exact Hlf|].
  split; [exact Hsame|exact Hcount].
Defined.

(** The bare LF after [b] has become a CRLF in the result. *)
Example untouched_lf_becomes_crlf :
  replaceWithLineEndingAwareness
    (str "a" ++ [CR; LF] ++ str "b" ++ [LF] ++ str "c" ++ [CR; LF] ++ str "d")
    (str "a") (str "x")
  = str "x" ++ [CR; LF] ++ str "b" ++ [CR; LF] ++ str "c" ++ [CR; LF]
      ++ str "d".
Proof. reflexivity. Qed.

(** C1, as stated, fails: the style is detected again at every block. The
    file is CRLF at the start; the first block joins its two lines, so the
    second block finds a working content without any terminator, takes LF
    for its style, and the line feed it writes stays bare. *)
Lemma style_of_original_not_kept :
  let content := str "a" ++ [CR; LF] ++ str "b" ++ padding in
  let diff :=
    block_text (str "a" ++ [LF] ++ str "b") (str "ab")
      ++ block_text (str "ab") (str "x" ++ [LF] ++ str "y") in
  let final := str "x" ++ [LF] ++ str "y" ++ padding in
  usesCrlf content = true
  /\ replaceInFile no_preview (one_file_world content) sample_path diff
     = (Applied accepted 2,
        set_vault (one_file_world content)
          (<[sample_path := TFile final]> (vault (one_file_world content))))
  /\ lfCount final = 1
  /\ ~ crlf_text final.
Proof.
  cbv zeta. split; [vm_compute; reflexivity|].
  split; [vm_compute; reflexivity|].
  assert (Hlf : lfCount (str "x" ++ [LF] ++ str "y" ++ padding) = 1)
    by (vm_compute; reflexivity).
  split; [exact Hlf|].
  intros Hcrlf. apply crlf_text_lfCount in Hcrlf. congruence.
Qed.

(** C1, amended. The style is detected for each block from the working
    content the block receives, and each block restores its own result:
    the output of the run is one aware replacement on the working content
    that the last block received, and its line terminators are all in the
    style detected from that working content. *)
Theorem style_follows_last_working_content
    content blocks b working n final n' :
  apply_blocks content 0 blocks = inr (working, n) ->
  apply_blocks content 0 (blocks ++ [b]) = inr (final, n') ->
  (exists s r,
     final = restoreLineEndings (usesCrlf working)
               (replaceAll (normalizeLineEndings working)
                  (normalizeLineEndings s) (normalizeLineEndings r)))
  /\ (if usesCrlf working then crlf_text final else lf_text final).
Proof.
  intros H1 H2. rewrite apply_blocks_app, H1 in H2. cbn [apply_blocks] in H2.
  destruct (apply_block working n b) as [e|[f m]] eqn:Hb; [discriminate|].
  injection H2 as -> ->.
  apply apply_block_inr in Hb. destruct Hb as (s & r & ->).
  split; [now exists s, r|apply aware_style].
Qed.

Lemma style_follows_last_working_content_witness :
  let content := str "a" ++ [CR; LF] ++ str "b" ++ padding in
  let b1 := {| searchText := str "a" ++ [LF] ++ str "b";
               replaceText := str "ab" |} in
  let b2 := {| searchText := str "ab";
               replaceText := str "x" ++ [LF] ++ str "y" |} in
  let working := str "ab" ++ padding in
  let final := str "x" ++ [LF] ++ str "y" ++ padding in
  apply_blocks content 0 [b1] = inr (working, 1)
  /\ apply_blocks content 0 ([b1] ++ [b2]) = inr (final, 2)
  /\ (exists s r,
        final = restoreLineEndings (usesCrlf working)
                  (replaceAll (normalizeLineEndings working)
                     (normalizeLineEndings s) (normalizeLineEndings r)))
  /\ (if usesCrlf working then crlf_text final else lf_text final).
Proof.
  cbv zeta.
  assert (H1 : apply_blocks (str "a" ++ [CR; LF] ++ str "b" ++ padding) 0
                 [{| searchText := str "a" ++ [LF] ++ str "b";
                     replaceText := str "ab" |}]
               = inr (str "ab" ++ padding, 1)) by (vm_compute; reflexivity).
  assert (H2 : apply_blocks (str "a" ++ [CR; LF] ++ str "b" ++ padding) 0
                 ([{| searchText := str "a" ++ [LF] ++ str "b";
                      replaceText := str "ab" |}]
                  ++ [{| searchText := str "ab";
                         replaceText := str "x" ++ [LF] ++ str "y" |}])
               = inr (str "x" ++ [LF] ++ str "y" ++ padding, 2))
    by (vm_compute; reflexivity).
  split; [exact H1|]. split; [exact H2|].
  exact (style_follows_last_working_content _ _ _ _ _ _ _ H1 H2).
Defined.

(** ** The [replaceInFile] tool (C5, C3, C4, C2, C9) *)

(** C5. For every existing file whose content is shorter than the
    threshold, [replaceInFile] answers that the file is too small and
    that [writeToFile] is to be used, whatever the instruction is (it is
    not parsed), and the world is left as it was. *)
Theorem small_file_rejected preview w path diff content :
  vault w !! path = Some (TFile content) ->
  length content < MIN_FILE_SIZE_FOR_REPLACE ->
  replaceInFile preview w path diff = (FileTooSmall, w).
Proof.
  intros Hfile Hsmall. unfold replaceInFile. rewrite Hfile.
  apply Nat.ltb_lt in Hsmall. now rewrite Hsmall.
Qed.

Lemma small_file_rejected_witness :
  let w := one_file_world (str "hello") in
  vault w !! sample_path = Some (TFile (str "hello"))
  /\ length (str "hello") < MIN_FILE_SIZE_FOR_REPLACE
  /\ replaceInFile no_preview w sample_path (str "anything")
     = (FileTooSmall, w).
Proof.
  cbv zeta.
  assert (H1 : vault (one_file_world (str "hello")) !! sample_path
               = Some (TFile (str "hello"))) by (vm_compute; reflexivity).
  assert (H2 : length (str "hello") < MIN_FILE_SIZE_FOR_REPLACE)
    by (vm_compute; lia).
  split; [exact H1|]. split; [exact H2|].
  exact (small_file_rejected no_preview _ _ (str "anything") _ H1 H2).
Defined.

(** C3. When the loop reaches a block whose normalized search text is not
    in the working content, and neither is that text without its trailing
    white space, [replaceInFile] answers with the failure that names the
    search text of that block, and the world, the stored document
    included, is what it was before the call: nothing of the blocks
    applied before is kept. *)
Theorem missing_search_text_aborts
    preview w path diff content before b after working n :
  vault w !! path = Some (TFile content) ->
  MIN_FILE_SIZE_FOR_REPLACE <= length content ->
  parseSearchReplaceBlocks diff = before ++ b :: after ->
  apply_blocks content 0 before = inr (working, n) ->
  includes (normalizeLineEndings working)
    (normalizeLineEndings (searchText b)) = false ->
  includes (normalizeLineEndings working)
    (trimEnd (normalizeLineEndings (searchText b))) = false ->
  replaceInFile preview w path diff
  = (SearchTextNotFound path (searchText b), w).
Proof.
  intros Hfile Hsize Hparse Hbefore Hmiss Hmiss'.
  unfold replaceInFile. rewrite Hfile.
  apply Nat.ltb_ge in Hsize. rewrite Hsize, Hparse.
  rewrite apply_blocks_app, Hbefore. cbn [apply_blocks].
  rewrite (apply_block_not_found _ _ _ Hmiss Hmiss').
  now destruct before.
Qed.

Lemma missing_search_text_aborts_witness :
  let content := str "foo" ++ padding in
  let w := one_file_world content in
  let diff :=
    block_text (str "foo") (str "bar") ++ block_text (str "qux") (str "x") in
  let b1 := {| searchText := str "foo"; replaceText := str "bar" |} in
  let b2 := {| searchText := str "qux"; replaceText := str "x" |} in
  let working := str "bar" ++ padding in
  vault w !! sample_path = Some (TFile content)
  /\ MIN_FILE_SIZE_FOR_REPLACE <= length content
  /\ parseSearchReplaceBlocks diff = [b1] ++ b2 :: []
  /\ apply_blocks content 0 [b1] = inr (working, 1)
  /\ includes (normalizeLineEndings working)
       (normalizeLineEndings (searchText b2)) = false
  /\ includes (normalizeLineEndings working)
       (trimEnd (normalizeLineEndings (searchText b2))) = false
  /\ replaceInFile no_preview w sample_path diff
     = (SearchTextNotFound sample_path (str "qux"), w).
Proof.
  cbv zeta.
  repeat (split; [vm_compute; first [reflexivity|lia]|]).
  apply (missing_search_text_aborts no_preview
           (one_file_world (str "foo" ++ padding)) sample_path _
           (str "foo" ++ padding)
           [{| searchText := str "foo"; replaceText := str "bar" |}]
           {| searchText := str "qux"; replaceText := str "x" |} []
           (str "bar" ++ padding) 1);
    vm_compute; first [reflexivity|lia].
Defined.

(** C4, as stated, fails: the document of the example has eleven code
    units, and the tool rejects it at the gate on the size. *)
Lemma example_document_too_small :
  let document := str "foo" ++ [LF] ++ str "foo" ++ [LF] ++ str "baz" in
  let diff :=
    str "------- SEARCH" ++ [LF] ++ str "foo" ++ [LF] ++ str "=======" ++ [LF]
      ++ str "bar" ++ [LF] ++ str "+++++++ REPLACE" in
  replaceInFile no_preview (one_file_world document) sample_path diff
  = (FileTooSmall, one_file_world document)
  /\ forall w',
       replaceInFile no_preview (one_file_world document) sample_path diff
       <> (Applied accepted 1, w').
Proof.
  cbv zeta.
  assert (H : replaceInFile no_preview
                (one_file_world
                   (str "foo" ++ [LF] ++ str "foo" ++ [LF] ++ str "baz"))
                sample_path
                (str "------- SEARCH" ++ [LF] ++ str "foo" ++ [LF]
                   ++ str "=======" ++ [LF] ++ str "bar" ++ [LF]
                   ++ str "+++++++ REPLACE")
              = (FileTooSmall,
                 one_file_world
                   (str "foo" ++ [LF] ++ str "foo" ++ [LF] ++ str "baz")))
    by (vm_compute; reflexivity).
  split; [exact H|]. intros w'. rewrite H. discriminate.
Qed.

(** C4, amended. The instruction parses to the one block from [foo] to
    [bar], and the loop over the blocks takes the document to
    [bar\nbar\nbaz] with one block applied; the tool itself rejects the
    document, which is shorter than the threshold, wherever it is
    stored. *)
Theorem example_block_applies_below_the_gate :
  let document := str "foo" ++ [LF] ++ str "foo" ++ [LF] ++ str "baz" in
  let diff :=
    str "------- SEARCH" ++ [LF] ++ str "foo" ++ [LF] ++ str "=======" ++ [LF]
      ++ str "bar" ++ [LF] ++ str "+++++++ REPLACE" in
  parseSearchReplaceBlocks diff
  = [{| searchText := str "foo"; replaceText := str "bar" |}]
  /\ apply_blocks document 0 (parseSearchReplaceBlocks diff)
     = inr (str "bar" ++ [LF] ++ str "bar" ++ [LF] ++ str "baz", 1)
  /\ forall preview w path,
       replaceInFile preview
         (set_vault w (<[path := TFile document]> (vault w))) path diff
       = (FileTooSmall, set_vault w (<[path := TFile document]> (vault w))).
Proof.
  cbv zeta. split; [vm_compute; reflexivity|].
  split; [vm_compute; reflexivity|].
  intros preview w path. unfold replaceInFile. cbn [vault set_vault].
  now rewrite lookup_insert_eq.
Qed.

(** C2, as stated, fails: a block is counted only when its replacement
    changes the working content. Here the one block is present in the
    document and writes what it finds; no block is counted, and the tool
    answers that nothing was changed. *)
Lemma unchanged_block_not_counted :
  let content := str "foo" ++ padding in
  let diff := block_text (str "foo") (str "foo") in
  let blocks := [{| searchText := str "foo"; replaceText := str "foo" |}] in
  parseSearchReplaceBlocks diff = blocks
  /\ includes (normalizeLineEndings content)
       (normalizeLineEndings (str "foo")) = true
  /\ apply_blocks content 0 blocks = inr (content, 0)
  /\ 0 <> length blocks
  /\ replaceInFile no_preview (one_file_world content) sample_path diff
     = (NoChangesMade sample_path, one_file_world content).
Proof.
  cbv zeta. repeat (split; [vm_compute; reflexivity|]).
  split; [discriminate|vm_compute; reflexivity].
Qed.

(** Search texts that are all in the document, none inside another, with
    occurrences that do not overlap, may still be missed: the first two
    blocks take away the occurrence of the third. *)
Example later_block_loses_its_text :
  let content := str "xay3 xy" ++ padding in
  let blocks := [ {| searchText := str "a"; replaceText := [] |};
                  {| searchText := str "xy"; replaceText := str "q" |};
                  {| searchText := str "y3"; replaceText := str "r" |} ] in
  forallb (fun b => includes content (searchText b)) blocks = true
  /\ forallb (fun b =>
               forallb (fun b' =>
                          str_eqb (searchText b) (searchText b')
                          || negb (includes (searchText b) (searchText b')))
                 blocks) blocks = true
  /\ apply_blocks content 0 blocks = inl (str "y3").
Proof. cbv zeta. repeat split; vm_compute; reflexivity. Qed.

Lemma apply_blocks_found content blocks : forall n,
  Forall plain_block blocks ->
  found_in_turn content blocks ->
  exists final,
    apply_blocks content n blocks
    = inr (final, n + changing_blocks content blocks)
    /\ applied_in_order content blocks final.
Proof.
  revert content. induction blocks as [|b bs IH]; intros content n Hplain Hfound.
  - exists content. cbn. rewrite Nat.add_0_r. split; [reflexivity|constructor].
  - inversion Hplain as [|? ? [Hs Hr] Hplain']; subst.
    destruct Hfound as [Hb Hfound].
    cbn [apply_blocks changing_blocks].
    rewrite (apply_block_found _ _ _ Hb). cbv zeta.
    set (content' :=
           replaceWithLineEndingAwareness content (searchText b)
             (replaceText b)) in *.
    destruct (IH content' (if str_eqb content' content then n else S n)
                Hplain' Hfound) as (final & Hrun & Horder).
    exists final. split.
    + rewrite Hrun. do 2 f_equal. destruct (str_eqb content' content); lia.
    + apply (aio_cons content b content'); [| |assumption].
      * subst content'. rewrite aware_normalize.
        apply replaceAll_spec; [|assumption].
        now apply normalize_dollar_free.
      * subst content'. apply aware_restore.
Qed.

Lemma changing_blocks_le content blocks :
  changing_blocks content blocks <= length blocks.
Proof.
  revert content. induction blocks as [|b bs IH]; intros content; cbn; [lia|].
  specialize (IH (replaceWithLineEndingAwareness content (searchText b)
                    (replaceText b))).
  destruct (str_eqb _ content); lia.
Qed.

(** C2, amended. For every document and every list of N blocks, each with
    a search text that is not empty and a replacement text without a
    dollar sign, each finding its search text in the working content of
    its turn: applying the blocks in order succeeds; every block replaces
    every occurrence of its search text in the working content by its
    replacement text, line endings apart; and the count reported is the
    number of blocks whose replacement changed the working content, which
    is at most N. *)
Theorem blocks_found_in_turn_are_applied content blocks :
  Forall plain_block blocks ->
  found_in_turn content blocks ->
  exists final,
    apply_blocks content 0 blocks
    = inr (final, changing_blocks content blocks)
    /\ applied_in_order content blocks final
    /\ changing_blocks content blocks <= length blocks.
Proof.
  intros Hplain Hfound.
  destruct (apply_blocks_found content blocks 0 Hplain Hfound)
    as (final & Hrun & Horder).
  exists final. split; [exact Hrun|].
  split; [exact Horder|apply changing_blocks_le].
Qed.

Lemma blocks_found_in_turn_are_applied_witness :
  let content := str "foo bar foo" ++ padding in
  let blocks := [ {| searchText := str "foo"; replaceText := str "baz" |};
                  {| searchText := str "bar"; replaceText := str "bar" |} ] in
  Forall plain_block blocks
  /\ found_in_turn content blocks
  /\ exists final,
       apply_blocks content 0 blocks
       = inr (final, changing_blocks content blocks)
       /\ applied_in_order content blocks final
       /\ changing_blocks content blocks <= length blocks.
Proof.
  cbv zeta.
  assert (H1 : Forall plain_block
                 [ {| searchText := str "foo"; replaceText := str "baz" |};
                   {| searchText := str "bar"; replaceText := str "bar" |} ]).
  { repeat constructor; try discriminate. }
  assert (H2 : found_in_turn (str "foo bar foo" ++ padding)
                 [ {| searchText := str "foo"; replaceText := str "baz" |};
                   {| searchText := str "bar"; replaceText := str "bar" |} ]).
  { repeat split; vm_compute; reflexivity. }
  split; [exact H1|]. split; [exact H2|].
  exact (blocks_found_in_turn_are_applied _ _ H1 H2).
Defined.

(** The run of the witness: two blocks, one counted. *)
Example one_of_two_blocks_counted :
  apply_blocks (str "foo bar foo" ++ padding) 0
    [ {| searchText := str "foo"; replaceText := str "baz" |};
      {| searchText := str "bar"; replaceText := str "bar" |} ]
  = inr (str "baz bar baz" ++ padding, 1).
Proof. vm_compute. reflexivity. Qed.

(** C9, as stated, fails: the replacement is written at the boundaries of
    the normalized content, not of the document. The two code units of a
    CRLF are one line feed when the replacement is made, so nothing is
    written between them. *)
Lemma nothing_inserted_inside_crlf :
  let content := str "a" ++ [CR; LF] ++ str "b" ++ padding in
  let diff := str "-------SEARCH=======bar+++++++REPLACE" in
  let final :=
    restoreLineEndings true
      (insert_at_every_boundary (str "bar")
         (str "a" ++ [LF] ++ str "b" ++ padding)) in
  parseSearchReplaceBlocks diff
  = [{| searchText := []; replaceText := str "bar" |}]
  /\ replaceInFile no_preview (one_file_world content) sample_path diff
     = (Applied accepted 1,
        set_vault (one_file_world content)
          (<[sample_path := TFile final]> (vault (one_file_world content))))
  /\ firstn 12 final = str "barabar" ++ [CR; LF] ++ str "bar"
  /\ final <> insert_at_every_boundary (str "bar") content.
Proof.
  cbv zeta. repeat (split; [vm_compute; reflexivity|]).
  intros H. apply (f_equal (firstn 12)) in H. vm_compute in H. discriminate H.
Qed.

(** C9, amended. The instruction of the example parses to a block with an
    empty search text; the loop takes a block with an empty search text
    for found in any working content, and, when the replacement text has
    no dollar sign, the block writes the normalized replacement text at
    every boundary of the normalized working content, before its first
    code unit and after its last included, and the result is restored to
    the style detected from the working content. *)
Theorem empty_search_text_inserts_everywhere content n r :
  dollar_free r ->
  let final :=
    restoreLineEndings (usesCrlf content)
      (insert_at_every_boundary (normalizeLineEndings r)
         (normalizeLineEndings content)) in
  parseSearchReplaceBlocks (str "-------SEARCH=======bar+++++++REPLACE")
  = [{| searchText := []; replaceText := str "bar" |}]
  /\ includes (normalizeLineEndings content) (normalizeLineEndings []) = true
  /\ apply_block content n {| searchText := []; replaceText := r |}
     = inr (final, if str_eqb final content then n else S n).
Proof.
  intros Hr final. split; [vm_compute; reflexivity|].
  split; [apply includes_nil|].
  rewrite apply_block_found by apply includes_nil.
  cbn [searchText replaceText]. cbv zeta.
  unfold replaceWithLineEndingAwareness.
  change (normalizeLineEndings []) with (@nil N).
  rewrite replaceAll_empty by now apply normalize_dollar_free.
  reflexivity.
Qed.

Lemma empty_search_text_inserts_everywhere_witness :
  dollar_free (str "bar")
  /\ apply_block (str "a" ++ [LF] ++ str "b") 0
       {| searchText := []; replaceText := str "bar" |}
     = inr (str "barabar" ++ [LF] ++ str "barbbar", 1).
Proof.
  assert (H : dollar_free (str "bar")) by (repeat constructor; discriminate).
  split; [exact H|].
  exact (proj2 (proj2 (empty_search_text_inserts_everywhere
                         (str "a" ++ [LF] ++ str "b") 0 (str "bar") H))).
Defined.

(** A dollar sign in the replacement text is not taken literally. *)
Example dollar_sequences_are_expanded :
  replaceWithLineEndingAwareness (str "price") (str "price") (str "$$5 $&")
  = str "$5 price".
Proof. reflexivity. Qed.

(** ** Backups and recovery (C8, C7) *)

(** When the vault is not a work tree, or the commit is refused, the
    backup answers [false] and changes nothing. *)
Lemma backup_fails_quietly w action :
  (git w = None \/ exists r, git w = Some r /\ commit_refused r = true) ->
  gitCommitBeforeRiskyAction w action = (false, w).
Proof.
  unfold gitCommitBeforeRiskyAction, git_commit_all.
  intros [Hg|(r & Hg & Hr)]; rewrite Hg; [reflexivity|now rewrite Hr].
Qed.

(** C8. For every delete and every move of an existing file in a vault
    that is not under version control, or whose backup commit is refused:
    the backup step answers [false] and raises nothing; the deletion or the
    move is still carried out, and succeeds unless the vault itself fails;
    and the result says that no backup was made. *)
Theorem backup_failure_does_not_block
    ensure_folder w path content destination action :
  (git w = None \/ exists r, git w = Some r /\ commit_refused r = true) ->
  vault w !! path = Some (TFile content) ->
  vault w !! destination = None ->
  let w0 :=
    match parent_folder destination with
    | [] => w
    | folder => set_vault w (ensure_folder folder (vault w))
    end in
  gitCommitBeforeRiskyAction w action = (false, w)
  /\ deleteNote w path
     = (if vault_faulty w then (DeleteError, w)
        else (Deleted false, set_vault w (delete path (vault w))))
  /\ moveNote ensure_folder w path destination
     = (if vault_faulty w then (MoveError, w0)
        else (Moved false path destination,
              set_vault w0
                (<[destination := TFile content]> (delete path (vault w0))))).
Proof.
  intros Hgit Hfile Hfree w0.
  split; [now apply backup_fails_quietly|]. split.
  - unfold deleteNote. rewrite Hfile, backup_fails_quietly by assumption.
    reflexivity.
  - unfold moveNote. rewrite Hfile, Hfree. subst w0.
    destruct (parent_folder destination) as [|x folder];
      rewrite backup_fails_quietly by assumption; reflexivity.
Qed.

Lemma backup_failure_does_not_block_witness :
  let w := one_file_world (str "hello") in
  let destination := str "notes/b.md" in
  (git w = None \/ exists r, git w = Some r /\ commit_refused r = true)
  /\ vault w !! sample_path = Some (TFile (str "hello"))
  /\ vault w !! destination = None
  /\ gitCommitBeforeRiskyAction w (str "Before deleting: notes/a.md")
     = (false, w)
  /\ deleteNote w sample_path
     = (Deleted false, set_vault w (delete sample_path (vault w)))
  /\ moveNote no_folders w sample_path destination
     = (Moved false sample_path destination,
        set_vault w
          (<[destination := TFile (str "hello")]>
             (delete sample_path (vault w)))).
Proof.
  cbv zeta.
  assert (H1 : git (one_file_world (str "hello")) = None
               \/ exists r, git (one_file_world (str "hello")) = Some r
                            /\ commit_refused r = true)
    by (left; reflexivity).
  assert (H2 : vault (one_file_world (str "hello")) !! sample_path
               = Some (TFile (str "hello"))) by (vm_compute; reflexivity).
  assert (H3 : vault (one_file_world (str "hello")) !! str "notes/b.md"
               = None) by (vm_compute; reflexivity).
  split; [exact H1|]. split; [exact H2|]. split; [exact H3|].
  exact (backup_failure_does_not_block no_folders _ sample_path _ _
           (str "Before deleting: notes/a.md") H1 H2 H3).
Defined.

(** A recovery from a commit whose subject lacks the tag is refused, and
    the world is left as it was. *)
Lemma undo_rejects_untagged w commitHash filePath subject :
  git_subject (git w) commitHash = Some subject ->
  includes subject AUTO_BACKUP = false ->
  undoFileOperation w commitHash filePath = (NotAutoBackup commitHash, w).
Proof.
  intros Hs Htag. unfold undoFileOperation. now rewrite Hs, Htag.
Qed.

(** A recovery to a path that exists in the vault is refused, and the world
    is left as it was. *)
Lemma undo_rejects_existing w commitHash filePath subject f :
  git_subject (git w) commitHash = Some subject ->
  includes subject AUTO_BACKUP = true ->
  vault w !! filePath = Some f ->
  undoFileOperation w commitHash filePath = (AlreadyExists filePath, w).
Proof.
  intros Hs Htag Hf. unfold undoFileOperation. now rewrite Hs, Htag, Hf.
Qed.

(** Otherwise the file comes back with the content that the parent of the
    commit records. *)
Lemma undo_restores_parent w commitHash filePath subject r c p pc content :
  git_subject (git w) commitHash = Some subject ->
  includes subject AUTO_BACKUP = true ->
  vault w !! filePath = None ->
  git w = Some r ->
  commits r !! commitHash = Some c ->
  c_parent c = Some p ->
  commits r !! p = Some pc ->
  c_tree pc !! filePath = Some content ->
  undoFileOperation w commitHash filePath
  = (Recovered filePath commitHash,
     set_vault w (<[filePath := TFile content]> (vault w))).
Proof.
  intros Hs Htag Hf Hg Hc Hp Hpc Hcontent. unfold undoFileOperation.
  rewrite Hs, Htag, Hf. unfold git_file_at_parent.
  now rewrite Hg, Hc, Hp, Hpc, Hcontent.
Qed.

(** C7. The recovery reads the parent of the backup commit, but the state
    just before the deletion is in the backup commit itself, which
    [git add -A] filled from the vault. A file edited since the last commit
    is deleted with a backup; its recovery from that backup brings back the
    content of the last commit, not the content that was deleted. *)
Theorem recovery_misses_uncommitted_edits :
  let first := {| c_message := str "first";
                  c_parent := None;
                  c_tree := {[ sample_path := str "old" ]} |} in
  let w0 := {| vault := {[ sample_path := TFile (str "new") ]};
               vault_faulty := false;
               autoAcceptEdits := false;
               git := Some {| commits := [first]; HEAD := Some 0;
                              commit_refused := false |} |} in
  let w1 := snd (deleteNote w0 sample_path) in
  let w2 := snd (undoFileOperation w1 1 sample_path) in
  fst (deleteNote w0 sample_path) = Deleted true
  /\ vault w1 !! sample_path = None
  /\ git_subject (git w1) 1
     = Some (str "[Auto-backup] Before deleting: notes/a.md")
  /\ (r ← git w1; c ← commits r !! 1; c_tree c !! sample_path)
     = Some (str "new")
  /\ fst (undoFileOperation w1 1 sample_path) = Recovered sample_path 1
  /\ vault w2 !! sample_path = Some (TFile (str "old")).
Proof. cbv zeta. repeat split; vm_compute; reflexivity. Qed.

(** A file that no commit before the backup records cannot be recovered
    at all: the parent of the backup commit does not have it. *)
Example recovery_fails_for_uncommitted_file :
  let first := {| c_message := str "first"; c_parent := None;
                  c_tree := ∅ |} in
  let w0 := {| vault := {[ sample_path := TFile (str "new") ]};
               vault_faulty := false;
               autoAcceptEdits := false;
               git := Some {| commits := [first]; HEAD := Some 0;
                              commit_refused := false |} |} in
  let w1 := snd (deleteNote w0 sample_path) in
  fst (deleteNote w0 sample_path) = Deleted true
  /\ undoFileOperation w1 1 sample_path = (NotInHistory sample_path, w1).
Proof. cbv zeta. split; vm_compute; reflexivity. Qed.

(** * Further properties of the tools *)

(** ** Line endings *)

(** Normalizing leaves no carriage return, and a second normalization
    changes nothing. *)
Theorem normalize_canonical x :
  lf_text (normalizeLineEndings x)
  /\ normalizeLineEndings (normalizeLineEndings x) = normalizeLineEndings x.
Proof.
  split; [apply normalize_no_cr|].
  apply lf_text_normalize, normalize_no_cr.
Qed.

(** For a content whose detected style is LF, the result of the aware
    replacement is the replacement made on the normalized content, with no
    carriage return and so no CRLF: a CRLF or a lone CR of the content,
    touched or not, has become a line feed. When the search text does not
    occur at all, the result is the content with each CRLF and each lone
    CR turned into one line feed, so that its line feeds are as many as
    the carriage returns and the bare line feeds of the content. *)
Theorem lf_content_gives_lf_result content s r :
  usesCrlf content = false ->
  lf_text (replaceWithLineEndingAwareness content s r)
  /\ crlfCount (replaceWithLineEndingAwareness content s r) = 0
  /\ replaceWithLineEndingAwareness content s r
     = replaceAll (normalizeLineEndings content)
         (normalizeLineEndings s) (normalizeLineEndings r)
  /\ (normalizeLineEndings s <> [] -> dollar_free r ->
      replaced_every_occurrence
        (normalizeLineEndings s) (normalizeLineEndings r)
        (normalizeLineEndings content)
        (replaceWithLineEndingAwareness content s r))
  /\ (includes (normalizeLineEndings content) (normalizeLineEndings s) = false ->
      replaceWithLineEndingAwareness content s r = normalizeLineEndings content
      /\ lfCount (replaceWithLineEndingAwareness content s r)
         = occurrences CR content + lfCount content).
Proof.
  intros Hstyle. pose proof (aware_style content s r) as H.
  rewrite Hstyle in H.
  assert (Hresult : replaceWithLineEndingAwareness content s r
                    = replaceAll (normalizeLineEndings content)
                        (normalizeLineEndings s) (normalizeLineEndings r))
    by (unfold replaceWithLineEndingAwareness; now rewrite Hstyle).
  split; [assumption|]. split; [now apply lf_text_crlfCount|].
  split; [exact Hresult|]. split.
  - intros Hs Hr. rewrite Hresult.
    apply replaceAll_spec; [|assumption]. now apply normalize_dollar_free.
  - intros Habsent. rewrite Hresult.
    rewrite replaceAll_absent by assumption. split; [reflexivity|].
    rewrite lf_text_lfCount by apply normalize_no_cr.
    apply occurrences_normalize.
Qed.

Lemma lf_content_gives_lf_result_witness :
  let content :=
    str "a" ++ [CR; LF] ++ str "b" ++ [CR] ++ str "c" ++ [LF] ++ str "d"
      ++ [LF] ++ str "e" ++ [LF] in
  let result := replaceWithLineEndingAwareness content (str "zz") (str "x") in
  usesCrlf content = false
  /\ lf_text result
  /\ crlfCount result = 0
  /\ result = str "a" ++ [LF] ++ str "b" ++ [LF] ++ str "c" ++ [LF] ++ str "d"
                ++ [LF] ++ str "e" ++ [LF]
  /\ lfCount result = 5.
Proof.
  cbv zeta.
  destruct (lf_content_gives_lf_result
              (str "a" ++ [CR; LF] ++ str "b" ++ [CR] ++ str "c" ++ [LF]
                 ++ str "d" ++ [LF] ++ str "e" ++ [LF])
              (str "zz") (str "x") eq_refl)
    as (Hlf & Hcrlf & _ & _ & Habsent).
  destruct (Habsent eq_refl) as (Hsame & Hcount).
  split; [reflexivity|]. split; [exact Hlf|]. split; [exact Hcrlf|].
  split; [exact Hsame|exact Hcount].
Defined.

(** When the search text does not occur, the aware replacement still
    rewrites the line endings: the result is the normalized content in the
    detected style. It is the content itself when the content is in one of
    the two styles. *)
Theorem absent_search_text_only_normalizes content s r :
  includes (normalizeLineEndings content) (normalizeLineEndings s) = false ->
  replaceWithLineEndingAwareness content s r
  = restoreLineEndings (usesCrlf content) (normalizeLineEndings content)
  /\ (consistent_line_endings content ->
      replaceWithLineEndingAwareness content s r = content).
Proof.
  intros Habsent. unfold replaceWithLineEndingAwareness.
  rewrite replaceAll_absent by assumption.
  split; [reflexivity|]. unfold usesCrlf. intros [Hlf|Hcrlf].
  - rewrite (lf_text_crlfCount content Hlf).
    change (lfCount content <? 0) with false. now apply lf_text_normalize.
  - rewrite (crlf_text_lfCount content Hcrlf).
    destruct (crlfCount content) as [|n] eqn:Hn.
    + apply lf_text_normalize. now apply crlf_text_no_terminator.
    + now apply crlf_text_restore.
Qed.

Lemma absent_search_text_only_normalizes_witness :
  let content := str "a" ++ [CR; LF] ++ str "b" ++ [LF] ++ str "c" ++ [LF] in
  includes (normalizeLineEndings content) (normalizeLineEndings (str "zz"))
  = false
  /\ replaceWithLineEndingAwareness content (str "zz") (str "y")
     = str "a" ++ [LF] ++ str "b" ++ [LF] ++ str "c" ++ [LF].
Proof.
  split; [reflexivity|].
  apply (proj1 (absent_search_text_only_normalizes
                  (str "a" ++ [CR; LF] ++ str "b" ++ [LF] ++ str "c" ++ [LF])
                  (str "zz") (str "y") eq_refl)).
Defined.

(** ** The loop and the handler of [replaceInFile] *)

Lemma apply_block_count content n b out n' :
  apply_block content n b = inr (out, n') -> n <= n' <= S n.
Proof.
  unfold apply_block. intros H.
  destruct (includes _ (normalizeLineEndings (searchText b))).
  - injection H as _ <-. destruct (str_eqb _ content); lia.
  - destruct (includes _ (trimEnd _)); [|discriminate].
    injection H as _ <-. destruct (str_eqb _ content); lia.
Qed.

(** The count that a successful run reports never goes down and grows by
    at most one for each block: [blocksApplied] is at most the number of
    blocks. *)
Theorem blocks_applied_bounded content blocks : forall n final n',
  apply_blocks content n blocks = inr (final, n') ->
  n <= n' <= n + length blocks.
Proof.
  revert content. induction blocks as [|b bs IH]; intros content n final n' H.
  - injection H as _ <-. cbn. lia.
  - cbn [apply_blocks] in H.
    destruct (apply_block content n b) as [e|[c1 n1]] eqn:Hb; [discriminate|].
    apply apply_block_count in Hb. apply IH in H. cbn [length]. lia.
Qed.

Lemma blocks_applied_bounded_witness :
  apply_blocks (str "foo bar") 0
    [ {| searchText := str "foo"; replaceText := str "baz" |};
      {| searchText := str "bar"; replaceText := str "bar" |} ]
  = inr (str "baz bar", 1)
  /\ 0 <= 1 <= 0 + 2.
Proof.
  assert (H : apply_blocks (str "foo bar") 0
                [ {| searchText := str "foo"; replaceText := str "baz" |};
                  {| searchText := str "bar"; replaceText := str "bar" |} ]
              = inr (str "baz bar", 1)) by reflexivity.
  split; [exact H|]. exact (blocks_applied_bounded _ _ _ _ _ H).
Defined.

(** Every answer of [replaceInFile] other than an applied change leaves
    the world as it was: a missing file, a file too small, an instruction
    without a block, a search text not found and an unchanged content
    write nothing. *)
Theorem replaceInFile_rejections_write_nothing
    preview w path diff result w' :
  replaceInFile preview w path diff = (result, w') ->
  (forall decision count, result <> Applied decision count) ->
  w' = w.
Proof.
  unfold replaceInFile. intros H Hnot.
  destruct (vault w !! path) as [[content|]|]; try now injection H.
  destruct (length content <? MIN_FILE_SIZE_FOR_REPLACE); [now injection H|].
  destruct (parseSearchReplaceBlocks diff) as [|b bs]; [now injection H|].
  destruct (apply_blocks content 0 (b :: bs)) as [e|[final n]];
    [now injection H|].
  destruct (str_eqb content final); [now injection H|].
  destruct (autoAcceptEdits w).
  - destruct (vault_faulty w); injection H as <- _;
      now contradiction (Hnot _ _ eq_refl).
  - destruct (preview path final w) as [decision w1].
    injection H as <- _. now contradiction (Hnot _ _ eq_refl).
Qed.

Lemma replaceInFile_rejections_write_nothing_witness :
  let w := one_file_world (str "foo" ++ padding) in
  replaceInFile no_preview w sample_path (str "no block here")
  = (NoValidBlocks (str "no block here"), w)
  /\ (forall decision count,
        NoValidBlocks (str "no block here") <> Applied decision count)
  /\ w = w.
Proof.
  cbv zeta.
  assert (H : replaceInFile no_preview (one_file_world (str "foo" ++ padding))
                sample_path (str "no block here")
              = (NoValidBlocks (str "no block here"),
                 one_file_world (str "foo" ++ padding)))
    by (vm_compute; reflexivity).
  assert (Hnot : forall decision count,
             NoValidBlocks (str "no block here") <> Applied decision count)
    by discriminate.
  split; [exact H|]. split; [exact Hnot|].
  exact (eq_sym (replaceInFile_rejections_write_nothing _ _ _ _ _ _ H Hnot)).
Defined.

(** With [autoAcceptEdits], a change that is accepted is the result of the
    loop on the content of the file, it differs from that content, and it
    is written at the path of the file and nowhere else: the other paths,
    the settings and the repository are what they were. *)
Theorem replaceInFile_accepted_writes_target
    preview w path diff count w' :
  autoAcceptEdits w = true ->
  replaceInFile preview w path diff = (Applied accepted count, w') ->
  exists content final,
    vault w !! path = Some (TFile content)
    /\ apply_blocks content 0 (parseSearchReplaceBlocks diff)
       = inr (final, count)
    /\ final <> content
    /\ vault w' !! path = Some (TFile final)
    /\ (forall p, p <> path -> vault w' !! p = vault w !! p)
    /\ git w' = git w
    /\ autoAcceptEdits w' = autoAcceptEdits w.
Proof.
  unfold replaceInFile. intros Hauto H.
  destruct (vault w !! path) as [[content|]|] eqn:Hfile; try discriminate.
  destruct (length content <? MIN_FILE_SIZE_FOR_REPLACE); [discriminate|].
  destruct (parseSearchReplaceBlocks diff) as [|b bs] eqn:Hparse;
    [discriminate|].
  destruct (apply_blocks content 0 (b :: bs)) as [e|[final n]] eqn:Hrun;
    [discriminate|].
  destruct (str_eqb content final) eqn:Hsame; [discriminate|].
  rewrite Hauto in H. destruct (vault_faulty w); [discriminate|].
  injection H as <- <-. exists content, final.
  split; [reflexivity|]. split; [exact Hrun|]. split.
  { intros ->. now rewrite str_eqb_refl in Hsame. }
  cbn [vault set_vault git autoAcceptEdits].
  split; [apply lookup_insert_eq|]. split; [|now split].
  intros p Hp. now apply lookup_insert_ne.
Qed.

Lemma replaceInFile_accepted_writes_target_witness :
  let w := one_file_world (str "foo" ++ padding) in
  let diff := block_text (str "foo") (str "bar") in
  let w' := set_vault w (<[sample_path := TFile (str "bar" ++ padding)]>
                           (vault w)) in
  autoAcceptEdits w = true
  /\ replaceInFile no_preview w sample_path diff = (Applied accepted 1, w')
  /\ exists content final,
       vault w !! sample_path = Some (TFile content)
       /\ apply_blocks content 0 (parseSearchReplaceBlocks diff)
          = inr (final, 1)
       /\ final <> content
       /\ vault w' !! sample_path = Some (TFile final)
       /\ (forall p, p <> sample_path -> vault w' !! p = vault w !! p)
       /\ git w' = git w
       /\ autoAcceptEdits w' = autoAcceptEdits w.
Proof.
  cbv zeta.
  assert (H : replaceInFile no_preview (one_file_world (str "foo" ++ padding))
                sample_path (block_text (str "foo") (str "bar"))
              = (Applied accepted 1,
                 set_vault (one_file_world (str "foo" ++ padding))
                   (<[sample_path := TFile (str "bar" ++ padding)]>
                      (vault (one_file_world (str "foo" ++ padding))))))
    by (vm_compute; reflexivity).
  split; [reflexivity|]. split; [exact H|].
  exact (replaceInFile_accepted_writes_target no_preview
           (one_file_world (str "foo" ++ padding)) _ _ _ _ eq_refl H).
Defined.

(** ** Trimming *)

Section Trimming.

Lemma trimStart_length l : length (trimStart l) <= length l.
Proof.
  induction l as [|c t IH]; cbn [trimStart]; [lia|].
  destruct (is_space c); cbn [length]; lia.
Qed.

Lemma trimStart_head l c t : trimStart l = c :: t -> is_space c = false.
Proof.
  induction l as [|x l IH]; cbn [trimStart]; [discriminate|].
  destruct (is_space x) eqn:Hx; [assumption|].
  intros [= <- _]. exact Hx.
Qed.

Lemma trimStart_nonspace c t : is_space c = false -> trimStart (c :: t) = c :: t.
Proof. intros H. cbn [trimStart]. now rewrite H. Qed.

Lemma trimStart_idem l : trimStart (trimStart l) = trimStart l.
Proof.
  destruct (trimStart l) as [|c t] eqn:H; [reflexivity|].
  apply trimStart_nonspace. now apply trimStart_head in H.
Qed.

Lemma trimStart_fixed c t : trimStart (c :: t) = c :: t -> is_space c = false.
Proof. apply trimStart_head. Qed.

Lemma trimStart_snoc a c :
  is_space c = false -> trimStart (a ++ [c]) = trimStart a ++ [c].
Proof.
  intros Hc. induction a as [|x a IH]; cbn [app trimStart].
  - now rewrite Hc.
  - now destruct (is_space x).
Qed.

Lemma trimEnd_snoc a c : is_space c = false -> trimEnd (a ++ [c]) = a ++ [c].
Proof.
  intros Hc. unfold trimEnd. rewrite rev_app_distr. cbn [rev app].
  rewrite trimStart_nonspace by assumption.
  cbn [rev]. now rewrite rev_involutive.
Qed.

Lemma trimEnd_cons c t : is_space c = false -> trimEnd (c :: t) = c :: trimEnd t.
Proof.
  intros Hc. unfold trimEnd. cbn [rev].
  rewrite trimStart_snoc by assumption. now rewrite rev_app_distr.
Qed.

Lemma trimEnd_idem l : trimEnd (trimEnd l) = trimEnd l.
Proof. unfold trimEnd. now rewrite rev_involutive, trimStart_idem. Qed.

(** A text that [trimEnd] leaves as it is is empty or ends with a code
    unit that is not white space. *)
Lemma trimEnd_fixed l :
  trimEnd l = l ->
  l = [] \/ exists a c, l = a ++ [c] /\ is_space c = false.
Proof.
  unfold trimEnd. intros H.
  assert (Hrev : trimStart (rev l) = rev l).
  { rewrite <- (rev_involutive (trimStart (rev l))), H. reflexivity. }
  destruct (rev l) as [|c t] eqn:Hl.
  - left. apply (f_equal (@rev N)) in Hl. now rewrite rev_involutive in Hl.
  - right. exists (rev t), c. split.
    + apply (f_equal (@rev N)) in Hl. now rewrite rev_involutive in Hl.
    + now apply trimStart_fixed in Hrev.
Qed.

(** What [trim] gives has no white space at either end. *)
Lemma trim_trimmed l :
  trimStart (trim l) = trim l /\ trimEnd (trim l) = trim l.
Proof.
  unfold trim. split; [|apply trimEnd_idem].
  destruct (trimStart l) as [|c t] eqn:H; [reflexivity|].
  apply trimStart_head in H. rewrite trimEnd_cons by assumption.
  now apply trimStart_nonspace.
Qed.

Lemma trim_idem l : trim (trim l) = trim l.
Proof.
  destruct (trim_trimmed l) as [H1 H2].
  unfold trim at 1. now rewrite H1, H2.
Qed.

Lemma trim_fixed l : trim l = l -> trimStart l = l /\ trimEnd l = l.
Proof. intros H. rewrite <- H. apply trim_trimmed. Qed.

Lemma is_space_CR : is_space CR = true.
Proof. reflexivity. Qed.

Lemma is_space_LF : is_space LF = true.
Proof. reflexivity. Qed.

Lemma replace_crlf_by_lf_snoc c : forall s,
  c <> LF -> replace_crlf_by_lf (s ++ [c]) = replace_crlf_by_lf s ++ [c].
Proof.
  intros s Hc. remember (length s) as n eqn:Hn. revert s Hn.
  induction n as [n IH] using lt_wf_ind. intros s ->.
  destruct s as [|a [|d t]].
  - reflexivity.
  - cbn [app]. rewrite replace_crlf_by_lf_eq.
    destruct (N.eqb_spec c LF) as [->|_]; [contradiction|].
    now rewrite andb_false_r.
  - cbn [app]. rewrite !replace_crlf_by_lf_eq.
    destruct ((a =? CR)%N && (d =? LF)%N).
    + cbn [app]. f_equal. apply (IH (length t)); [cbn; lia|reflexivity].
    + cbn [app]. f_equal.
      apply (IH (length (d :: t)) ltac:(cbn; lia) (d :: t) eq_refl).
Qed.

Lemma normalize_snoc s c :
  c <> CR -> c <> LF ->
  normalizeLineEndings (s ++ [c]) = normalizeLineEndings s ++ [c].
Proof.
  intros Hcr Hlf. unfold normalizeLineEndings, replace_cr_by_lf.
  rewrite replace_crlf_by_lf_snoc by assumption.
  rewrite List.map_app. cbn [List.map].
  destruct (N.eqb_spec c CR); [contradiction|reflexivity].
Qed.

(** Normalizing a text without trailing white space gives a text without
    trailing white space. *)
Lemma trimEnd_normalize s :
  trimEnd s = s -> trimEnd (normalizeLineEndings s) = normalizeLineEndings s.
Proof.
  intros H. destruct (trimEnd_fixed s H) as [->|(a & c & -> & Hc)];
    [reflexivity|].
  rewrite normalize_snoc.
  - now apply trimEnd_snoc.
  - intros ->. now rewrite is_space_CR in Hc.
  - intros ->. now rewrite is_space_LF in Hc.
Qed.

End Trimming.

(** ** The parser *)

Lemma parse_loop_trimmed fuel : forall inp,
  Forall (fun b => trim (searchText b) = searchText b
                   /\ trim (replaceText b) = replaceText b)
    (parse_loop fuel inp).
Proof.
  induction fuel as [|f IH]; intros inp; cbn [parse_loop]; [constructor|].
  destruct (exec inp) as [[caps rest]|]; [|constructor].
  constructor; [|apply IH]. cbn [searchText replaceText].
  split; apply trim_idem.
Qed.

(** The texts of every block that the parser returns are trimmed: neither
    begins nor ends with white space. *)
Theorem parsed_blocks_are_trimmed diff :
  Forall (fun b => trim (searchText b) = searchText b
                   /\ trim (replaceText b) = replaceText b)
    (parseSearchReplaceBlocks diff).
Proof. apply parse_loop_trimmed. Qed.

(** For a block that comes from the parser, the second look of the loop,
    for the search text without its trailing white space, is the first
    look again: the block is applied exactly when its normalized search
    text is in the normalized working content, and is reported as not
    found otherwise. *)
Theorem parsed_block_never_uses_fallback diff b content n :
  In b (parseSearchReplaceBlocks diff) ->
  apply_block content n b
  = if includes (normalizeLineEndings content)
         (normalizeLineEndings (searchText b))
    then
      let content' :=
        replaceWithLineEndingAwareness content (searchText b) (replaceText b) in
      inr (content', if str_eqb content' content then n else S n)
    else inl (searchText b).
Proof.
  intros Hin.
  pose proof (parse_loop_trimmed (S (length diff)) diff) as Hall.
  fold (parseSearchReplaceBlocks diff) in Hall.
  rewrite List.Forall_forall in Hall. destruct (Hall b Hin) as [Hs _].
  apply trim_fixed in Hs. destruct Hs as [_ Hs].
  apply trimEnd_normalize in Hs.
  destruct (includes (normalizeLineEndings content)
              (normalizeLineEndings (searchText b))) eqn:Hfound.
  - now apply apply_block_found.
  - apply apply_block_not_found; [assumption|]. now rewrite Hs.
Qed.

Lemma parsed_block_never_uses_fallback_witness :
  let diff := block_text (str "foo") (str "bar") in
  let b := {| searchText := str "foo"; replaceText := str "bar" |} in
  In b (parseSearchReplaceBlocks diff)
  /\ apply_block (str "a foo") 0 b = inr (str "a bar", 1).
Proof.
  cbv zeta.
  assert (H : In {| searchText := str "foo"; replaceText := str "bar" |}
                (parseSearchReplaceBlocks
                   (block_text (str "foo") (str "bar"))))
    by (left; reflexivity).
  split; [exact H|].
  exact (parsed_block_never_uses_fallback _ _ (str "a foo") 0 H).
Defined.

Lemma blockRegex_needs_dash {R : Type} inp caps
    (k : jsstring -> list jsstring -> option R) :
  match inp with
  | [] => True
  | c :: _ => c <> 45%N
  end ->
  rmatch blockRegex inp caps k = None.
Proof.
  intros H. unfold blockRegex, SEARCH_MARKER. cbn [rmatch exactly].
  destruct inp as [|c t]; [reflexivity|].
  cbn [in_class]. destruct (N.eqb_spec c 45%N); [contradiction|reflexivity].
Qed.

Lemma exec_needs_dash inp :
  Forall (fun c => c <> 45%N) inp -> exec inp = None.
Proof.
  induction 1 as [|c t Hc _ IH]; cbn [exec].
  - now rewrite blockRegex_needs_dash.
  - now rewrite blockRegex_needs_dash.
Qed.

(** An instruction without a hyphen holds no block, and on a file that
    passes the gate on the size [replaceInFile] answers that no valid block
    was found and writes nothing. *)
Theorem instruction_without_dash_has_no_block preview w path diff content :
  Forall (fun c => c <> 45%N) diff ->
  vault w !! path = Some (TFile content) ->
  MIN_FILE_SIZE_FOR_REPLACE <= length content ->
  parseSearchReplaceBlocks diff = []
  /\ replaceInFile preview w path diff = (NoValidBlocks diff, w).
Proof.
  intros Hdiff Hfile Hsize.
  assert (Hparse : parseSearchReplaceBlocks diff = []).
  { unfold parseSearchReplaceBlocks. cbn [parse_loop].
    now rewrite exec_needs_dash. }
  split; [exact Hparse|].
  unfold replaceInFile. rewrite Hfile.
  apply Nat.ltb_ge in Hsize. now rewrite Hsize, Hparse.
Qed.

Lemma instruction_without_dash_has_no_block_witness :
  let w := one_file_world padding in
  let diff := str "replace foo by bar" in
  Forall (fun c => c <> 45%N) diff
  /\ vault w !! sample_path = Some (TFile padding)
  /\ MIN_FILE_SIZE_FOR_REPLACE <= length padding
  /\ parseSearchReplaceBlocks diff = []
  /\ replaceInFile no_preview w sample_path diff = (NoValidBlocks diff, w).
Proof.
  cbv zeta.
  assert (H1 : Forall (fun c => c <> 45%N) (str "replace foo by bar"))
    by (repeat constructor; discriminate).
  assert (H2 : vault (one_file_world padding) !! sample_path
               = Some (TFile padding)) by (vm_compute; reflexivity).
  assert (H3 : MIN_FILE_SIZE_FOR_REPLACE <= length padding)
    by (vm_compute; lia).
  split; [exact H1|]. split; [exact H2|]. split; [exact H3|].
  exact (instruction_without_dash_has_no_block no_preview _ _ _ _ H1 H2 H3).
Defined.

Lemma exec_takes_22 inp caps rest :
  exec inp = Some (caps, rest) -> length rest + 22 <= length inp.
Proof.
  induction inp as [|c t IH]; intros H; cbn [exec] in H.
  - destruct (rmatch blockRegex [] [] _) as [m|] eqn:Hm; [|discriminate].
    apply rmatch_inv in Hm. destruct Hm as (? & ? & _ & Hlen).
    cbn in Hlen. lia.
  - destruct (rmatch blockRegex (c :: t) [] _) as [m|] eqn:Hm.
    + injection H as ->. apply rmatch_inv in Hm.
      destruct Hm as (rest' & caps' & [= <- <-] & Hlen).
      change (min_length blockRegex) with 22 in Hlen. exact Hlen.
    + specialize (IH H). cbn [length]. lia.
Qed.

Lemma parse_loop_length fuel : forall inp,
  22 * length (parse_loop fuel inp) <= length inp.
Proof.
  induction fuel as [|f IH]; intros inp; cbn [parse_loop]; [cbn; lia|].
  destruct (exec inp) as [[caps rest]|] eqn:He; [|cbn; lia].
  apply exec_takes_22 in He. specialize (IH rest). cbn [length]. lia.
Qed.

(** Every block takes at least twenty-two code units of the instruction,
    those of its three markers: an instruction of [n] code units holds at
    most [n / 22] blocks, and none when it is shorter than that. *)
Theorem blocks_take_22_code_units diff :
  22 * length (parseSearchReplaceBlocks diff) <= length diff.
Proof. apply parse_loop_length. Qed.

(** *** A block in the format of the tool description *)

Section CanonicalBlock.

Context {R : Type}.
Implicit Types (k : jsstring -> list jsstring -> option R).

Lemma rmatch_Cat r1 r2 inp caps k :
  rmatch (Cat r1 r2) inp caps k
  = rmatch r1 inp caps (fun rest caps' => rmatch r2 rest caps' k).
Proof. reflexivity. Qed.

Lemma exactly_ok p a b (k' : jsstring -> option R) :
  Forall (fun c => p c = true) a ->
  exactly (length a) p (a ++ b) k' = k' b.
Proof.
  induction 1 as [|c t Hc _ IH]; [reflexivity|].
  cbn [length app exactly]. now rewrite Hc.
Qed.

Lemma greedy_ok p a b (k' : jsstring -> option R) x :
  Forall (fun c => p c = true) a ->
  starts_outside p b ->
  k' b = Some x ->
  greedy_star p (a ++ b) k' = Some x.
Proof.
  intros Ha Hb Hk. induction Ha as [|c t Hc _ IH].
  - destruct b as [|c t]; [exact Hk|].
    cbn [app greedy_star]. cbn in Hb. now rewrite Hb.
  - cbn [app greedy_star]. now rewrite Hc, IH.
Qed.

(** A greedy repetition takes all the code units of its class when what
    follows can be matched from there. *)
Lemma rep_ok cl a1 a2 b caps k x :
  Forall (fun c => in_class cl c = true) a1 ->
  Forall (fun c => in_class cl c = true) a2 ->
  starts_outside (in_class cl) b ->
  k b caps = Some x ->
  rmatch (Rep (length a1) cl) (a1 ++ a2 ++ b) caps k = Some x.
Proof.
  intros H1 H2 Hb Hk. cbn [rmatch].
  rewrite exactly_ok by assumption. now apply greedy_ok.
Qed.

Lemma word_ok w after b caps k :
  rmatch (word w after) (w ++ b) caps k = rmatch after b caps k.
Proof.
  induction w as [|c w IH]; [reflexivity|].
  cbn [word app]. rewrite rmatch_Cat. cbn [rmatch in_class].
  now rewrite N.eqb_refl.
Qed.

Lemma opt_newline_skip b caps k :
  starts_outside (fun c => (c =? CR)%N || (c =? LF)%N) b ->
  rmatch OPT_NEWLINE b caps k = k b caps.
Proof.
  intros Hb. unfold OPT_NEWLINE. cbn [rmatch in_class].
  destruct b as [|c t]; [reflexivity|].
  cbn in Hb. apply orb_false_iff in Hb. destruct Hb as [Hcr Hlf].
  now rewrite Hcr, Hlf.
Qed.

Lemma opt_newline_take b caps k x :
  k b caps = Some x -> rmatch OPT_NEWLINE (LF :: b) caps k = Some x.
Proof.
  intros Hk. unfold OPT_NEWLINE. cbn [rmatch in_class].
  change (LF =? CR)%N with false. change (LF =? LF)%N with true.
  cbn iota. now rewrite Hk.
Qed.

Lemma lazy_ok a b (k' : jsstring -> option R) x :
  (forall a1 a2, a = a1 ++ a2 -> a2 <> [] -> k' (a2 ++ b) = None) ->
  k' b = Some x ->
  lazy_star (in_class CAny) (a ++ b) k' = Some x.
Proof.
  intros Hfail Hk. induction a as [|c t IH].
  - destruct b; cbn [app lazy_star]; now rewrite Hk.
  - pose proof (Hfail [] (c :: t) eq_refl ltac:(discriminate)) as Hc.
    cbn [app] in Hc |- *. cbn [lazy_star in_class]. rewrite Hc.
    apply IH. intros a1 a2 -> Ha2. now apply (Hfail (c :: a1) a2).
Qed.

(** A lazy group stops at the first place from where what follows can be
    matched, and captures what it has passed. *)
Lemma group_lazy_ok a b caps k x :
  (forall a1 a2 caps', a = a1 ++ a2 -> a2 <> [] ->
     k (a2 ++ b) caps' = None) ->
  k b (caps ++ [a]) = Some x ->
  rmatch (Group (LazyStar CAny)) (a ++ b) caps k = Some x.
Proof.
  intros Hfail Hk. cbn [rmatch]. apply lazy_ok.
  - intros a1 a2 Ha Ha2. now apply (Hfail a1 a2).
  - rewrite length_app, Nat.add_sub, firstn_app, firstn_all, Nat.sub_diag.
    cbn [firstn]. now rewrite app_nil_r.
Qed.

Lemma rep3_fails e X a z rest caps k :
  Forall (fun c => c <> e) a -> z <> e ->
  rmatch (Cat (Rep 3 (CLit e)) X) (a ++ z :: rest) caps k = None.
Proof.
  intros Ha Hz. rewrite rmatch_Cat. cbn [rmatch exactly in_class].
  destruct Ha as [|c t Hc _]; cbn [app].
  - destruct (N.eqb_spec z e); [contradiction|reflexivity].
  - destruct (N.eqb_spec c e); [contradiction|reflexivity].
Qed.

(** A marker does not begin inside a text that holds none of its signs and
    does not end with a line break: the optional line break of the marker
    may take one or two code units of the text, and the signs of the
    marker, matched by [K1], are not found after them. *)
Lemma opt_newline_fails e K1 a z rest caps :
  (forall a' caps', Forall (fun c => c <> e) a' ->
     K1 (a' ++ z :: rest) caps' = None) ->
  Forall (fun c => c <> e) a ->
  z <> CR -> z <> LF ->
  rmatch OPT_NEWLINE (a ++ z :: rest) caps K1 = (None : option R).
Proof.
  intros HK Ha Hcr Hlf. unfold OPT_NEWLINE. cbn [rmatch in_class].
  pose proof (HK [] caps (List.Forall_nil _)) as H0. cbn [app] in H0.
  pose proof (HK a caps Ha) as Hwhole.
  destruct Ha as [|c t Hc Ht]; cbn [app] in *.
  - destruct (N.eqb_spec z CR); [contradiction|].
    destruct (N.eqb_spec z LF); [contradiction|exact H0].
  - pose proof (HK t caps Ht) as H1.
    destruct Ht as [|d t' Hd Ht']; cbn [app] in *.
    + destruct (N.eqb_spec z LF); [contradiction|].
      destruct (c =? CR)%N; destruct (c =? LF)%N; rewrite ?H0; exact Hwhole.
    + pose proof (HK t' caps Ht') as H2.
      destruct (c =? CR)%N; destruct (d =? LF)%N; destruct (c =? LF)%N;
        rewrite ?H2, ?H1; exact Hwhole.
Qed.

Lemma marker_fails e X a z rest caps k :
  Forall (fun c => c <> e) a -> z <> e -> z <> CR -> z <> LF ->
  rmatch (Cat OPT_NEWLINE (Cat (Rep 3 (CLit e)) X)) (a ++ z :: rest) caps k
  = None.
Proof.
  intros Ha Hz Hcr Hlf. rewrite rmatch_Cat.
  apply (opt_newline_fails e); try assumption.
  intros a' caps' Ha'. now apply rep3_fails.
Qed.

End CanonicalBlock.

Lemma not_space_not_newline c :
  is_space c = false -> (c =? CR)%N || (c =? LF)%N = false.
Proof.
  intros H. destruct (N.eqb_spec c CR) as [->|_]; [discriminate H|].
  destruct (N.eqb_spec c LF) as [->|_]; [discriminate H|reflexivity].
Qed.

Lemma suffix_snoc (a1 a2 sa : jsstring) sz :
  a1 ++ a2 = sa ++ [sz] -> a2 <> [] ->
  exists a2', a2 = a2' ++ [sz] /\ sa = a1 ++ a2'.
Proof.
  intros H Ha2. destruct (exists_last Ha2) as (a2' & z & ->).
  rewrite app_assoc in H. apply app_inj_tail in H. destruct H as [H ->].
  now exists a2'.
Qed.

(** The text of a block as it is written is matched from its first code
    unit, whatever follows it, with the two texts captured; the line break
    that ends the block is left. *)
Lemma canonical_block_matches s r after :
  s <> [] -> r <> [] -> trim s = s -> trim r = r ->
  Forall (fun c => c <> 61%N) s -> Forall (fun c => c <> 43%N) r ->
  rmatch blockRegex (block_text s r ++ after) []
    (fun rest caps => Some (caps, rest))
  = Some ([s; r], LF :: after).
Proof.
  intros Hs Hr Hts Htr Hes Hpr.
  apply trim_fixed in Hts. destruct Hts as [Hs1 Hs2].
  apply trim_fixed in Htr. destruct Htr as [Hr1 Hr2].
  destruct (trimEnd_fixed s Hs2) as [?|(sa & sz & Hsz & Hzs)]; [contradiction|].
  destruct (trimEnd_fixed r Hr2) as [?|(ra & rz & Hrz & Hzr)]; [contradiction|].
  assert (Hs0 : starts_outside is_space s).
  { destruct s as [|c0 s0]; [exact I|]. now apply trimStart_fixed in Hs1. }
  assert (Hr0 : starts_outside is_space r).
  { destruct r as [|c0 r0]; [exact I|]. now apply trimStart_fixed in Hr1. }
  assert (Hnl : forall x y, x <> [] -> starts_outside is_space x ->
            starts_outside (fun c => (c =? CR)%N || (c =? LF)%N) (x ++ y)).
  { intros [|c x] y Hne Hx; [contradiction|].
    cbn in *. now apply not_space_not_newline. }
  assert (Hsp : forall x y, x <> [] -> starts_outside is_space x ->
            starts_outside is_space (x ++ y)).
  { intros [|c x] y Hne Hx; [contradiction|exact Hx]. }
  unfold blockRegex, block_text. rewrite <- !app_assoc.
  set (tail_r := [LF] ++ str "+++++++ REPLACE" ++ [LF] ++ after).
  set (tail_s := [LF] ++ str "=======" ++ [LF] ++ r ++ tail_r).
  rewrite rmatch_Cat. unfold SEARCH_MARKER. rewrite rmatch_Cat.
  change (str "------- SEARCH" ++ [LF] ++ s ++ tail_s)
    with (str "---" ++ str "----"
            ++ (str " SEARCH" ++ [LF] ++ s ++ tail_s)).
  apply (rep_ok (CLit 45%N) (str "---") (str "----"));
    [repeat constructor|repeat constructor|reflexivity|].
  rewrite rmatch_Cat.
  change (str " SEARCH" ++ [LF] ++ s ++ tail_s)
    with ([] ++ [32%N] ++ (str "SEARCH" ++ ([LF] ++ s ++ tail_s))).
  apply (rep_ok CSpace [] [32%N]);
    [constructor|repeat constructor|reflexivity|].
  rewrite word_ok, rmatch_Cat.
  change ([LF] ++ s ++ tail_s) with ([] ++ [LF] ++ (s ++ tail_s)).
  apply (rep_ok CSpace [] [LF]);
    [constructor|repeat constructor|now apply Hsp|].
  rewrite opt_newline_skip by (apply Hnl; assumption).
  rewrite rmatch_Cat. apply group_lazy_ok.
  { intros a1 a2 caps' Hsplit Ha2. rewrite rmatch_Cat. unfold SEPARATOR.
    rewrite Hsz in Hsplit. symmetry in Hsplit.
    destruct (suffix_snoc _ _ _ _ Hsplit Ha2) as (a2' & -> & ->).
    rewrite <- app_assoc. cbn [app].
    rewrite Hsz in Hes. apply Forall_app in Hes. destruct Hes as [Hes Hez].
    apply Forall_app in Hes. destruct Hes as [_ Hes].
    inversion Hez; subst.
    apply marker_fails; try assumption.
    - intros ->. discriminate Hzs.
    - intros ->. discriminate Hzs. }
  cbn [app]. rewrite rmatch_Cat. unfold SEPARATOR. rewrite rmatch_Cat.
  subst tail_s. cbn [app]. apply opt_newline_take.
  rewrite rmatch_Cat.
  change (str "=======" ++ LF :: r ++ tail_r)
    with (str "===" ++ str "====" ++ ([LF] ++ r ++ tail_r)).
  apply (rep_ok (CLit 61%N) (str "===") (str "===="));
    [repeat constructor|repeat constructor|reflexivity|].
  rewrite rmatch_Cat.
  change ([LF] ++ r ++ tail_r) with ([] ++ [LF] ++ (r ++ tail_r)).
  apply (rep_ok CSpace [] [LF]);
    [constructor|repeat constructor|now apply Hsp|].
  rewrite opt_newline_skip by (apply Hnl; assumption).
  rewrite rmatch_Cat. apply group_lazy_ok.
  { intros a1 a2 caps' Hsplit Ha2. unfold REPLACE_MARKER.
    rewrite Hrz in Hsplit. symmetry in Hsplit.
    destruct (suffix_snoc _ _ _ _ Hsplit Ha2) as (a2' & -> & ->).
    rewrite <- app_assoc. cbn [app].
    rewrite Hrz in Hpr. apply Forall_app in Hpr. destruct Hpr as [Hpr Hpz].
    apply Forall_app in Hpr. destruct Hpr as [_ Hpr].
    inversion Hpz; subst.
    apply marker_fails; try assumption.
    - intros ->. discriminate Hzr.
    - intros ->. discriminate Hzr. }
  subst tail_r. unfold REPLACE_MARKER. rewrite rmatch_Cat. cbn [app].
  apply opt_newline_take. rewrite rmatch_Cat.
  change (str "+++++++ REPLACE" ++ LF :: after)
    with (str "+++" ++ str "++++" ++ (str " REPLACE" ++ LF :: after)).
  apply (rep_ok (CLit 43%N) (str "+++") (str "++++"));
    [repeat constructor|repeat constructor|reflexivity|].
  rewrite rmatch_Cat.
  change (str " REPLACE" ++ LF :: after)
    with ([] ++ [32%N] ++ (str "REPLACE" ++ LF :: after)).
  apply (rep_ok CSpace [] [32%N]);
    [constructor|repeat constructor|reflexivity|].
  rewrite word_ok. reflexivity.
Qed.

Lemma parse_after_line_break after :
  parseSearchReplaceBlocks (LF :: after) = parseSearchReplaceBlocks after.
Proof.
  rewrite (parseSearchReplaceBlocks_unfold (LF :: after)),
    (parseSearchReplaceBlocks_unfold after).
  cbn [exec]. rewrite blockRegex_needs_dash by discriminate. reflexivity.
Qed.

(** A block written as the description of the tool shows it, in front of
    any further text, parses to that block followed by the blocks of the
    further text. *)
Lemma canonical_block_parses_first s r after :
  canonical_block {| searchText := s; replaceText := r |} ->
  parseSearchReplaceBlocks (block_text s r ++ after)
  = {| searchText := s; replaceText := r |} :: parseSearchReplaceBlocks after.
Proof.
  intros (Hs & Hr & Hts & Htr & Hes & Hpr). cbn [searchText replaceText] in *.
  rewrite parseSearchReplaceBlocks_unfold.
  assert (He : exec (block_text s r ++ after) = Some ([s; r], LF :: after)).
  { pose proof (canonical_block_matches s r after Hs Hr Hts Htr Hes Hpr) as Hm.
    destruct (block_text s r ++ after) as [|c t] eqn:Hb; cbn [exec];
      now rewrite Hm. }
  rewrite He. cbn [nth]. rewrite Hts, Htr. now rewrite parse_after_line_break.
Qed.

Lemma exec_skips_prose prose after :
  Forall (fun c => c <> 45%N) prose -> exec (prose ++ after) = exec after.
Proof.
  induction 1 as [|c t Hc _ IH]; [reflexivity|].
  cbn [app exec]. now rewrite blockRegex_needs_dash.
Qed.

Lemma parse_skips_prose prose after :
  Forall (fun c => c <> 45%N) prose ->
  parseSearchReplaceBlocks (prose ++ after) = parseSearchReplaceBlocks after.
Proof.
  intros H. rewrite (parseSearchReplaceBlocks_unfold (prose ++ after)),
    (parseSearchReplaceBlocks_unfold after).
  now rewrite exec_skips_prose.
Qed.

(** An instruction is free text: blocks written in the format of the tool
    description, each after any text without a hyphen and with such a text
    at the end, parse to the blocks, in their order, when the texts of each
    block are trimmed and not empty, with no equals sign in the search text
    and no plus sign in the replacement text. *)
Theorem blocks_between_prose_parse_in_order items closing :
  Forall (fun item => Forall (fun c => c <> 45%N) (fst item)
                      /\ canonical_block (snd item)) items ->
  Forall (fun c => c <> 45%N) closing ->
  parseSearchReplaceBlocks (commented_instruction items closing)
  = List.map snd items.
Proof.
  intros Hitems Hclosing. unfold commented_instruction.
  induction Hitems as [|[prose [s r]] items [Hprose Hb] _ IH].
  - cbn [flat_map app List.map]. rewrite <- (app_nil_r closing).
    now rewrite parse_skips_prose.
  - cbn [flat_map List.map fst snd searchText replaceText] in *.
    rewrite <- !app_assoc, parse_skips_prose by assumption.
    rewrite canonical_block_parses_first by assumption.
    f_equal. exact IH.
Qed.

Lemma blocks_between_prose_parse_in_order_witness :
  let b1 := {| searchText := str "old text" ++ [LF] ++ str "on two lines";
               replaceText := str "new = text" |} in
  let b2 := {| searchText := str "--- second +++"; replaceText := str "x" |} in
  let items := [ (str "First change:" ++ [LF], b1); ([], b2) ] in
  let closing := str "That is all." in
  Forall (fun item => Forall (fun c => c <> 45%N) (fst item)
                      /\ canonical_block (snd item)) items
  /\ Forall (fun c => c <> 45%N) closing
  /\ parseSearchReplaceBlocks (commented_instruction items closing)
     = [b1; b2].
Proof.
  cbv zeta.
  assert (H1 : Forall (fun item => Forall (fun c => c <> 45%N) (fst item)
                                   /\ canonical_block (snd item))
                 [ (str "First change:" ++ [LF],
                    {| searchText :=
                         str "old text" ++ [LF] ++ str "on two lines";
                       replaceText := str "new = text" |});
                   ([], {| searchText := str "--- second +++";
                           replaceText := str "x" |}) ]).
  { repeat constructor; cbn [fst snd searchText replaceText];
      solve [vm_compute; discriminate | reflexivity | discriminate]. }
  assert (H2 : Forall (fun c => c <> 45%N) (str "That is all."))
    by (repeat constructor; discriminate).
  split; [exact H1|]. split; [exact H2|].
  exact (blocks_between_prose_parse_in_order _ _ H1 H2).
Defined.

(** ** Paths, and the [writeToFile] tool *)

Lemma after_slash_app x y :
  Forall (fun c => c <> 47%N) x -> after_slash (x ++ 47%N :: y) = y.
Proof.
  induction 1 as [|c t Hc _ IH]; [reflexivity|].
  cbn [app after_slash]. destruct (N.eqb_spec c 47%N); [contradiction|exact IH].
Qed.

Lemma after_slash_none x : Forall (fun c => c <> 47%N) x -> after_slash x = [].
Proof.
  induction 1 as [|c t Hc _ IH]; [reflexivity|].
  cbn [after_slash]. destruct (N.eqb_spec c 47%N); [contradiction|exact IH].
Qed.

Lemma parent_folder_before_last_slash folder name :
  Forall (fun c => c <> 47%N) name ->
  parent_folder (folder ++ [47%N] ++ name) = folder
  /\ parent_folder name = [].
Proof.
  intros Hname. unfold parent_folder.
  assert (Hrev : Forall (fun c => c <> 47%N) (rev name)).
  { apply List.Forall_forall. intros c Hc. apply List.in_rev in Hc.
    rewrite List.Forall_forall in Hname. now apply Hname. }
  split.
  - rewrite !rev_app_distr. cbn [rev app]. rewrite <- app_assoc. cbn [app].
    rewrite after_slash_app by assumption. apply rev_involutive.
  - now rewrite after_slash_none.
Qed.

Section WriteToolProperties.

Variable ensure_folder :
  jsstring -> gmap jsstring abstract_file -> gmap jsstring abstract_file.
Variable apply_view : jsstring -> jsstring -> world -> ApplyViewResult * world.
Variable object : Type.
Variable JSON_stringify : object -> jsstring.

Lemma getFile_keeps_flags w path :
  let w1 := snd (getFile ensure_folder w path) in
  vault_faulty w1 = vault_faulty w /\ git w1 = git w
  /\ autoAcceptEdits w1 = autoAcceptEdits w.
Proof.
  unfold getFile. destruct (vault w !! path) as [[c|]|]; cbn; try easy.
  destruct (parent_folder path) as [|x f]; cbn [vault set_vault].
  - destruct (vault w !! path) as [[c|]|]; now cbn.
  - destruct (ensure_folder (x :: f) (vault w) !! path) as [[c|]|]; now cbn.
Qed.

(** [getFile] answers [true] only with a world that has a file at the
    path, and [false] only with a world that has a folder there. *)
Lemma getFile_result w path ok w1 :
  getFile ensure_folder w path = (ok, w1) ->
  if ok then exists c, vault w1 !! path = Some (TFile c)
  else vault w1 !! path = Some TFolder.
Proof.
  unfold getFile. destruct (vault w !! path) as [[c|]|] eqn:Hp.
  - intros [= <- <-]. eauto.
  - intros [= <- <-]. exact Hp.
  - set (w0 := match parent_folder path with
               | [] => w
               | _ :: _ => set_vault w (ensure_folder (parent_folder path)
                                          (vault w))
               end).
    destruct (vault w0 !! path) as [[c|]|] eqn:Hp0.
    + intros [= <- <-]. eauto.
    + intros [= <- <-]. exact Hp0.
    + intros [= <- <-]. exists []. cbn [vault set_vault].
      apply lookup_insert_eq.
Qed.

(** A write without preview to a path that is not a folder, in a vault
    that takes writes, is accepted, and afterwards the path holds a file
    with exactly the content given, whether the file was there before or
    not; the repository is not touched. *)
Theorem bypassed_write_lands w path content confirmation :
  autoAcceptEdits w || negb confirmation = true ->
  vault_faulty w = false ->
  vault w !! path <> Some TFolder ->
  (forall folder, ensure_folder folder (vault w) !! path <> Some TFolder) ->
  exists w',
    writeToFile ensure_folder apply_view object JSON_stringify
      w path content confirmation
    = (WriteAnswer accepted, w')
    /\ vault w' !! path
       = Some (TFile (content_string object JSON_stringify content))
    /\ git w' = git w.
Proof.
  intros Hbypass Hfaulty Hpath Hensure. unfold writeToFile.
  rewrite Hbypass.
  destruct (getFile ensure_folder w path) as [ok w1] eqn:Hget.
  pose proof (getFile_keeps_flags w path) as Hflags. rewrite Hget in Hflags.
  cbn [snd] in Hflags. destruct Hflags as (Hf & Hg & _).
  pose proof (getFile_result w path ok w1 Hget) as Hres.
  destruct ok.
  - rewrite Hf, Hfaulty. eexists. split; [reflexivity|].
    cbn [vault set_vault git]. split; [apply lookup_insert_eq|exact Hg].
  - exfalso. unfold getFile in Hget.
    destruct (vault w !! path) as [[c|]|] eqn:Hp.
    + discriminate Hget.
    + now apply Hpath.
    + destruct (parent_folder path) as [|x f] eqn:Hfolder.
      * rewrite Hp in Hget. discriminate Hget.
      * cbn [vault set_vault] in Hget.
        destruct (ensure_folder (x :: f) (vault w) !! path) as [[c|]|] eqn:Hp0;
          try discriminate Hget.
        now apply (Hensure (x :: f)).
Qed.

(** A write to a path that is a folder changes nothing: without preview
    the answer is [failed], and with the preview [getFile] throws before
    any view is opened. *)
Theorem write_to_folder_fails w path content confirmation :
  vault w !! path = Some TFolder ->
  writeToFile ensure_folder apply_view object JSON_stringify
    w path content confirmation
  = (if autoAcceptEdits w || negb confirmation
     then WriteAnswer failed else WriteThrown, w).
Proof.
  intros Hp. unfold writeToFile, show_preview, getFile.
  rewrite Hp. now destruct (autoAcceptEdits w || negb confirmation).
Qed.

(** A write with preview to a free path creates the file, empty, before
    the view is opened: when the user rejects the change and the view
    leaves the world as it is, the file is there all the same. *)
Theorem rejected_preview_leaves_empty_file w path content :
  autoAcceptEdits w = false ->
  vault w !! path = None ->
  parent_folder path = [] ->
  let w1 := set_vault w (<[path := TFile []]> (vault w)) in
  apply_view path (content_string object JSON_stringify content) w1
  = (rejected, w1) ->
  writeToFile ensure_folder apply_view object JSON_stringify
    w path content true
  = (WriteAnswer rejected, w1)
  /\ vault w1 !! path = Some (TFile []).
Proof.
  intros Hauto Hp Hfolder w1 Hview.
  unfold writeToFile, show_preview, getFile.
  rewrite Hauto, Hp, Hfolder, Hp. cbn [orb negb]. fold w1. rewrite Hview.
  split; [reflexivity|]. subst w1. cbn [vault set_vault].
  apply lookup_insert_eq.
Qed.

End WriteToolProperties.

Lemma bypassed_write_lands_witness :
  let w := one_file_world (str "old") in
  let path := str "b.md" in
  autoAcceptEdits w || negb true = true
  /\ vault_faulty w = false
  /\ vault w !! path <> Some TFolder
  /\ (forall folder, no_folders folder (vault w) !! path <> Some TFolder)
  /\ exists w',
       writeToFile no_folders no_preview unit (fun _ => []) w path
         (inl (str "new")) true
       = (WriteAnswer accepted, w')
       /\ vault w' !! path
          = Some (TFile (content_string unit (fun _ => []) (inl (str "new"))))
       /\ git w' = git w.
Proof.
  cbv zeta.
  assert (H3 : vault (one_file_world (str "old")) !! str "b.md"
               <> Some TFolder) by (vm_compute; discriminate).
  assert (H4 : forall folder,
             no_folders folder (vault (one_file_world (str "old")))
               !! str "b.md" <> Some TFolder)
    by (intros folder; vm_compute; discriminate).
  split; [reflexivity|]. split; [reflexivity|].
  split; [exact H3|]. split; [exact H4|].
  exact (bypassed_write_lands no_folders no_preview unit (fun _ => [])
           (one_file_world (str "old")) (str "b.md") (inl (str "new")) true
           eq_refl eq_refl H3 H4).
Defined.

Lemma write_to_folder_fails_witness :
  let w := {| vault := {[ str "notes" := TFolder ]};
              vault_faulty := false; autoAcceptEdits := false;
              git := None |} in
  vault w !! str "notes" = Some TFolder
  /\ writeToFile no_folders no_preview unit (fun _ => []) w (str "notes")
       (inl (str "new")) true
     = (WriteThrown, w).
Proof.
  cbv zeta.
  assert (H : vault {| vault := {[ str "notes" := TFolder ]};
                       vault_faulty := false; autoAcceptEdits := false;
                       git := None |} !! str "notes" = Some TFolder)
    by (vm_compute; reflexivity).
  split; [exact H|].
  exact (write_to_folder_fails no_folders no_preview unit (fun _ => [])
           _ _ (inl (str "new")) true H).
Defined.

Lemma rejected_preview_leaves_empty_file_witness :
  let w := {| vault := ∅; vault_faulty := false; autoAcceptEdits := false;
              git := None |} in
  let w1 := set_vault w (<[str "b.md" := TFile []]> (vault w)) in
  autoAcceptEdits w = false
  /\ vault w !! str "b.md" = None
  /\ parent_folder (str "b.md") = []
  /\ no_preview (str "b.md")
       (content_string unit (fun _ => []) (inl (str "new"))) w1
     = (rejected, w1)
  /\ writeToFile no_folders no_preview unit (fun _ => []) w (str "b.md")
       (inl (str "new")) true
     = (WriteAnswer rejected, w1)
  /\ vault w1 !! str "b.md" = Some (TFile []).
Proof.
  cbv zeta.
  assert (H2 : vault {| vault := ∅; vault_faulty := false;
                        autoAcceptEdits := false; git := None |}
                 !! str "b.md" = None) by (vm_compute; reflexivity).
  split; [reflexivity|]. split; [exact H2|].
  split; [reflexivity|]. split; [reflexivity|].
  exact (rejected_preview_leaves_empty_file no_folders no_preview unit
           (fun _ => [])
           {| vault := ∅; vault_faulty := false; autoAcceptEdits := false;
              git := None |} (str "b.md") (inl (str "new"))
           eq_refl H2 eq_refl eq_refl).
Defined.

(** ** Backups, deletion, move and recovery *)




Section MoveProperties.

Variable ensure_folder :
  jsstring -> gmap jsstring abstract_file -> gmap jsstring abstract_file.

(** A move that succeeds goes to another path: the destination then holds
    the file with the content that the source had, and the source is
    gone. *)
Theorem move_carries_the_content w source destination backup w' :
  moveNote ensure_folder w source destination
  = (Moved backup source destination, w') ->
  source <> destination
  /\ exists content,
       vault w !! source = Some (TFile content)
       /\ vault w !! destination = None
       /\ vault w' !! destination = Some (TFile content)
       /\ vault w' !! source = None.
Proof.
  unfold moveNote. intros H.
  destruct (vault w !! source) as [[content|]|] eqn:Hs; try discriminate.
  destruct (vault w !! destination) as [f|] eqn:Hd; [discriminate|].
  assert (Hne : source <> destination) by (intros ->; congruence).
  destruct (gitCommitBeforeRiskyAction _ _) as [b w1].
  destruct (vault_faulty w1); [discriminate|]. injection H as _ <-.
  split; [exact Hne|]. exists content. cbn [vault set_vault].
  split; [reflexivity|]. split; [reflexivity|].
  split; [apply lookup_insert_eq|].
  rewrite lookup_insert_ne by (intros Heq; now apply Hne).
  apply lookup_delete_eq.
Qed.

End MoveProperties.

Lemma move_carries_the_content_witness :
  let w := one_file_world (str "hello") in
  let destination := str "notes/b.md" in
  let w' := set_vault w (<[destination := TFile (str "hello")]>
                           (delete sample_path (vault w))) in
  moveNote no_folders w sample_path destination
  = (Moved false sample_path destination, w')
  /\ sample_path <> destination
  /\ exists content,
       vault w !! sample_path = Some (TFile content)
       /\ vault w !! destination = None
       /\ vault w' !! destination = Some (TFile content)
       /\ vault w' !! sample_path = None.
Proof.
  cbv zeta.
  assert (H : moveNote no_folders (one_file_world (str "hello")) sample_path
                (str "notes/b.md")
              = (Moved false sample_path (str "notes/b.md"),
                 set_vault (one_file_world (str "hello"))
                   (<[str "notes/b.md" := TFile (str "hello")]>
                      (delete sample_path
                         (vault (one_file_world (str "hello")))))))
    by (vm_compute; reflexivity).
  split; [exact H|]. exact (move_carries_the_content _ _ _ _ _ _ H).
Defined.










Section MoveUndo.

Variable ensure_folder :
  jsstring -> gmap jsstring abstract_file -> gmap jsstring abstract_file.


End MoveUndo.


(** ** The list of recent operations *)

Section Splitting.

Variable sep : jsstring.
Hypothesis sep_not_empty : sep <> [].

Lemma split_go_skip skip : forall acc l,
  skip <= length l ->
  split_go sep skip acc l = split_go sep 0 acc (skipn skip l).
Proof.
  induction skip as [|k IH]; intros acc l Hk; [reflexivity|].
  destruct l as [|c t]; [cbn in Hk; lia|].
  cbn [split_go skipn]. apply IH. cbn in Hk. lia.
Qed.

Lemma split_go_nonempty skip acc l : split_go sep skip acc l <> [].
Proof.
  revert skip acc. induction l as [|c t IH]; intros skip acc; [discriminate|].
  cbn [split_go]. destruct skip; [|apply IH].
  destruct (startsWith (c :: t) sep); [discriminate|apply IH].
Qed.

(** At an occurrence of the separator, the piece being read is closed and
    the reading resumes after the separator. *)
Lemma split_go_match acc b :
  split_go sep 0 acc (sep ++ b) = acc :: split_go sep 0 [] b.
Proof.
  pose proof (startsWith_app sep b) as Hm.
  pose proof (split_go_skip (length sep - 1) [] (skipn 1 (sep ++ b))) as Hk.
  destruct sep as [|x sep'] eqn:Hsep; [now contradiction sep_not_empty|].
  cbn [app split_go] in *. rewrite Hm. f_equal.
  change (length (x :: sep') - 1) with (length sep' - 0) in Hk.
  change (skipn 1 (x :: sep' ++ b)) with (sep' ++ b) in Hk.
  change (length (x :: sep') - 1) with (length sep' - 0).
  rewrite Nat.sub_0_r in *.
  rewrite Hk by (rewrite length_app; lia).
  now rewrite skipn_app, skipn_all, Nat.sub_diag.
Qed.

Lemma split_go_pass acc c t :
  startsWith (c :: t) sep = false ->
  split_go sep 0 acc (c :: t) = split_go sep 0 (acc ++ [c]) t.
Proof. intros H. cbn [split_go]. now rewrite H. Qed.

(** Up to the first occurrence of the separator. *)
Lemma split_go_first a : forall acc b,
  (forall k, k < length a ->
     startsWith (skipn k (a ++ sep ++ b)) sep = false) ->
  split_go sep 0 acc (a ++ sep ++ b) = (acc ++ a) :: split_go sep 0 [] b.
Proof.
  induction a as [|c t IH]; intros acc b Hleft.
  - cbn [app]. rewrite app_nil_r. apply split_go_match.
  - cbn [app]. rewrite split_go_pass by (apply (Hleft 0); cbn; lia).
    rewrite IH.
    + now rewrite <- app_assoc.
    + intros k Hk. apply (Hleft (S k)). cbn. lia.
Qed.

(** Without any occurrence of the separator. *)
Lemma split_go_none l : forall acc,
  includes l sep = false -> split_go sep 0 acc l = [acc ++ l].
Proof.
  induction l as [|c t IH]; intros acc H.
  - cbn. now rewrite app_nil_r.
  - rewrite includes_cons in H. apply orb_false_iff in H.
    destruct H as [Hc Ht]. rewrite split_go_pass by assumption.
    rewrite IH by assumption. now rewrite <- app_assoc.
Qed.

Lemma join_cons p ps :
  ps <> [] -> join sep (p :: ps) = p ++ sep ++ join sep ps.
Proof. destruct ps; [contradiction|reflexivity]. Qed.

Lemma join_split_go n : forall l acc,
  length l <= n -> join sep (split_go sep 0 acc l) = acc ++ l.
Proof.
  induction n as [n IH] using lt_wf_ind. intros l acc Hn.
  destruct l as [|c t]; [cbn; now rewrite app_nil_r|].
  destruct (startsWith (c :: t) sep) eqn:Hm.
  - apply startsWith_spec in Hm. destruct Hm as (b & Hm). rewrite Hm.
    rewrite split_go_match, join_cons by apply split_go_nonempty.
    assert (Hlen : length b < length (c :: t)).
    { rewrite Hm, length_app. destruct sep; [contradiction|cbn; lia]. }
    now rewrite (IH (length b) ltac:(lia) b [] (Nat.le_refl _)).
  - rewrite split_go_pass by assumption.
    rewrite (IH (length t) ltac:(cbn in Hn; lia) t _ (Nat.le_refl _)).
    now rewrite <- app_assoc.
Qed.

(** Joining the pieces of a text with the separator gives the text back. *)
Lemma join_split s : join sep (split s sep) = s.
Proof. unfold split. now rewrite (join_split_go (length s)). Qed.

End Splitting.

Lemma startsWith_single c t x : startsWith (c :: t) [x] = (x =? c)%N.
Proof. cbn [startsWith]. rewrite startsWith_nil. apply andb_true_r. Qed.

(** A field without the separator, in front of the separator. *)
Lemma split_field x a b acc :
  Forall (fun c => c <> x) a ->
  split_go [x] 0 acc (a ++ [x] ++ b) = (acc ++ a) :: split_go [x] 0 [] b.
Proof.
  intros Ha. apply split_go_first; [discriminate|].
  intros k Hk. rewrite skipn_app.
  assert (Hk' : k - length a = 0) by lia. rewrite Hk'. cbn [skipn].
  assert (Hin : Forall (fun c => c <> x) (skipn k a))
    by now apply Forall_skipn_N.
  destruct (skipn k a) as [|c t] eqn:Hs.
  - pose proof (List.length_skipn k a) as Hlen. rewrite Hs in Hlen.
    cbn in Hlen. lia.
  - cbn [app]. rewrite startsWith_single. inversion Hin; subst.
    destruct (N.eqb_spec x c); [congruence|reflexivity].
Qed.

(** *** The folder of a path *)

Lemma includes_single_none x l :
  Forall (fun c => c <> x) l -> includes l [x] = false.
Proof.
  induction 1 as [|c t Hc _ IH]; [reflexivity|].
  rewrite includes_cons, startsWith_single, IH.
  destruct (N.eqb_spec x c); [congruence|reflexivity].
Qed.

(** A text has no [x], or a last one. *)
Lemma last_occurrence x (l : jsstring) :
  Forall (fun c => c <> x) l
  \/ exists a b, l = a ++ [x] ++ b /\ Forall (fun c => c <> x) b.
Proof.
  induction l as [|c t [IH|(a & b & -> & Hb)]].
  - left. constructor.
  - destruct (N.eq_dec c x) as [->|Hc].
    + right. now exists [], t.
    + left. now constructor.
  - right. now exists (c :: a), b.
Qed.

(** The last field: [split] gives the fields of what comes before the
    last separator, and then what comes after it. *)
Lemma split_last_field x name :
  Forall (fun c => c <> x) name ->
  forall a acc,
    split_go [x] 0 acc (a ++ [x] ++ name) = split_go [x] 0 acc a ++ [name].
Proof.
  intros Hname. induction a as [|c t IH]; intros acc.
  - rewrite (split_field x [] name acc) by constructor.
    rewrite split_go_none by now apply includes_single_none.
    now rewrite app_nil_r.
  - cbn [app split_go]. rewrite !startsWith_single.
    destruct (x =? c)%N; cbn [length Nat.sub]; now rewrite IH.
Qed.

(** The expression of the source for the folder of a path computes what
    comes before the last slash of the path, and the empty string for a
    path without a slash: it is [parent_folder]. *)
Theorem folder_by_split_is_parent_folder p folder name :
  Forall (fun c => c <> 47%N) name ->
  folder_by_split p = parent_folder p
  /\ folder_by_split (folder ++ str "/" ++ name) = folder
  /\ folder_by_split name = [].
Proof.
  assert (Hslash : forall a b,
             Forall (fun c => c <> 47%N) b ->
             folder_by_split (a ++ [47%N] ++ b) = a).
  { intros a b Hb. unfold folder_by_split. change (str "/") with [47%N].
    assert (Hin : includes (a ++ [47%N] ++ b) [47%N] = true)
      by (apply includes_spec; now exists a, b).
    rewrite Hin. unfold split. rewrite split_last_field by assumption.
    rewrite removelast_last. apply (join_split [47%N]). discriminate. }
  assert (Hnone : forall b,
             Forall (fun c => c <> 47%N) b -> folder_by_split b = []).
  { intros b Hb. unfold folder_by_split. change (str "/") with [47%N].
    now rewrite includes_single_none. }
  intros Hname. split; [|split; [now apply Hslash|now apply Hnone]].
  destruct (last_occurrence 47%N p) as [Hp|(a & b & -> & Hb)].
  - rewrite Hnone by assumption. symmetry.
    now apply (parent_folder_before_last_slash []).
  - rewrite Hslash by assumption. symmetry.
    now apply parent_folder_before_last_slash.
Qed.

Lemma folder_by_split_is_parent_folder_witness :
  Forall (fun c => c <> 47%N) (str "a.md")
  /\ folder_by_split (str "notes/sub/a.md") = parent_folder (str "notes/sub/a.md")
  /\ folder_by_split (str "notes/sub" ++ str "/" ++ str "a.md") = str "notes/sub"
  /\ folder_by_split (str "a.md") = [].
Proof.
  assert (H : Forall (fun c => c <> 47%N) (str "a.md"))
    by (repeat constructor; discriminate).
  split; [exact H|].
  exact (folder_by_split_is_parent_folder (str "notes/sub/a.md")
           (str "notes/sub") _ H).
Defined.

Lemma replace_scan_eq whole pattern template pos l :
  replace_scan whole pattern template pos l
  = if startsWith l pattern then
      GetSubstitution pattern whole pos template ++ skipn (length pattern) l
    else
      match l with
      | [] => []
      | c :: t => c :: replace_scan whole pattern template (S pos) t
      end.
Proof. destruct l; reflexivity. Qed.

(** Taking a prefix away. *)
Lemma replace_prefix prefix rest :
  replace (prefix ++ rest) prefix [] = rest.
Proof.
  unfold replace. rewrite replace_scan_eq, startsWith_app.
  cbn [GetSubstitution app].
  now rewrite skipn_app, skipn_all, Nat.sub_diag.
Qed.

Lemma startsWith_long s : forall x y,
  length s <= length x -> startsWith (x ++ y) s = startsWith x s.
Proof.
  induction s as [|c s IH]; intros x y Hlen.
  - now rewrite !startsWith_nil.
  - destruct x as [|d x]; [cbn in Hlen; lia|].
    cbn [app startsWith]. rewrite IH by (cbn in Hlen; lia). reflexivity.
Qed.

Lemma includes_false_skipn l s : forall k,
  includes l s = false -> startsWith (skipn k l) s = false.
Proof.
  induction l as [|c t IH]; intros k H.
  - rewrite skipn_nil.
    change (includes [] s) with (startsWith [] s || false) in H.
    now rewrite orb_false_r in H.
  - rewrite includes_cons in H. apply orb_false_iff in H.
    destruct H as [Hc Ht]. destruct k; [exact Hc|]. cbn [skipn]. now apply IH.
Qed.

(** Trimming leaves a text that begins and ends with texts that trimming
    leaves. *)
Lemma trim_between x m y :
  x <> [] -> trim x = x -> y <> [] -> trim y = y ->
  trim (x ++ m ++ y) = x ++ m ++ y.
Proof.
  intros Hx Htx Hy Hty.
  apply trim_fixed in Htx. destruct Htx as [Hx1 _].
  apply trim_fixed in Hty. destruct Hty as [_ Hy2].
  destruct (trimEnd_fixed y Hy2) as [?|(ya & yz & -> & Hz)]; [contradiction|].
  destruct x as [|c x']; [contradiction|].
  apply trimStart_fixed in Hx1. unfold trim. cbn [app].
  rewrite trimStart_nonspace by assumption.
  change (c :: x' ++ m ++ ya ++ [yz]) with ((c :: x') ++ m ++ ya ++ [yz]).
  rewrite !app_assoc. now apply trimEnd_snoc.
Qed.

(** The subject that the backup of a deletion writes is read as a deletion
    of the path, trimmed. *)
Lemma message_action_delete path :
  message_action (AUTO_BACKUP ++ str " " ++ str "Before deleting: " ++ path)
  = (action_delete, trim path, []).
Proof.
  unfold message_action.
  assert (Hin : includes
                  (AUTO_BACKUP ++ str " " ++ str "Before deleting: " ++ path)
                  (str "Before deleting:") = true).
  { apply includes_spec. now exists (str "[Auto-backup] "), (str " " ++ path). }
  rewrite Hin.
  change (AUTO_BACKUP ++ str " " ++ str "Before deleting: " ++ path)
    with (str "[Auto-backup] Before deleting: " ++ path).
  now rewrite replace_prefix.
Qed.

(** The subject that the backup of a move writes is read as a move from
    the source to the destination, when the two paths are trimmed and not
    empty, the arrow of the subject is the first one in it and the only
    one, and the words of a deletion are not in it. *)
Lemma message_action_move source destination :
  let message := AUTO_BACKUP ++ str " " ++ str "Before moving: " ++ source
                   ++ str " -> " ++ destination in
  includes message (str "Before deleting:") = false ->
  source <> [] -> trim source = source ->
  destination <> [] -> trim destination = destination ->
  includes (source ++ str " ->") (str " -> ") = false ->
  includes destination (str " -> ") = false ->
  message_action message = (action_move, source, destination).
Proof.
  intros message Hdel Hs Hts Hd Htd Hfirst Honly.
  unfold message_action. rewrite Hdel.
  assert (Hin : includes message (str "Before moving:") = true).
  { apply includes_spec.
    now exists (str "[Auto-backup] "),
               (str " " ++ source ++ str " -> " ++ destination). }
  rewrite Hin. subst message.
  change (AUTO_BACKUP ++ str " " ++ str "Before moving: " ++ source
            ++ str " -> " ++ destination)
    with (str "[Auto-backup] Before moving: "
            ++ (source ++ str " -> " ++ destination)).
  rewrite replace_prefix, trim_between by assumption.
  unfold split.
  rewrite split_go_first; [|discriminate|].
  - rewrite split_go_none by assumption. cbn [app].
    now rewrite Hts, Htd.
  - intros k Hk. rewrite skipn_app.
    assert (Hk' : k - length source = 0) by lia. rewrite Hk'.
    change (skipn 0 (str " -> " ++ destination))
      with (str " ->" ++ ([32%N] ++ destination)).
    rewrite (app_assoc (skipn k source)), startsWith_long.
    + pose proof (includes_false_skipn _ _ k Hfirst) as H.
      rewrite skipn_app, Hk' in H. exact H.
    + rewrite length_app, List.length_skipn. cbn. lia.
Qed.

Lemma operation_of_line_fields hash timeAgo message index :
  Forall (fun c => c <> 124%N) hash ->
  Forall (fun c => c <> 124%N) timeAgo ->
  operation_of_line (hash ++ str "|" ++ timeAgo ++ str "|" ++ message) index
  = let '(actionType, filePath, destPath) := message_action message in
    Some {| op_index := S index;
            op_hash := trim hash;
            op_timeAgo := trim timeAgo;
            op_actionType := actionType;
            op_filePath := filePath;
            op_destPath := destPath;
            op_fullMessage := message |}.
Proof.
  intros Hh Ht. unfold operation_of_line, split.
  change (str "|") with [124%N].
  rewrite split_field by assumption. rewrite split_field by assumption.
  cbn [app]. fold (split message [124%N]).
  now rewrite join_split by discriminate.
Qed.

(** The line that [git log] prints for the backup of a deletion is listed
    as a deletion of the deleted path, trimmed, whatever the path holds,
    separators included. *)
Theorem delete_backup_is_listed hash timeAgo path index :
  Forall (fun c => c <> 124%N) hash ->
  Forall (fun c => c <> 124%N) timeAgo ->
  let message := AUTO_BACKUP ++ str " " ++ str "Before deleting: " ++ path in
  operation_of_line (hash ++ str "|" ++ timeAgo ++ str "|" ++ message) index
  = Some {| op_index := S index;
            op_hash := trim hash;
            op_timeAgo := trim timeAgo;
            op_actionType := action_delete;
            op_filePath := trim path;
            op_destPath := [];
            op_fullMessage := message |}.
Proof.
  intros Hh Ht message. subst message.
  rewrite operation_of_line_fields by assumption.
  now rewrite message_action_delete.
Qed.

Lemma delete_backup_is_listed_witness :
  Forall (fun c => c <> 124%N) (str "3f2a91c")
  /\ Forall (fun c => c <> 124%N) (str "2 hours ago")
  /\ operation_of_line
       (str "3f2a91c|2 hours ago|[Auto-backup] Before deleting: notes/a|b.md")
       0
     = Some {| op_index := 1;
               op_hash := str "3f2a91c";
               op_timeAgo := str "2 hours ago";
               op_actionType := action_delete;
               op_filePath := str "notes/a|b.md";
               op_destPath := [];
               op_fullMessage :=
                 str "[Auto-backup] Before deleting: notes/a|b.md" |}.
Proof.
  assert (H1 : Forall (fun c => c <> 124%N) (str "3f2a91c"))
    by (repeat constructor; discriminate).
  assert (H2 : Forall (fun c => c <> 124%N) (str "2 hours ago"))
    by (repeat constructor; discriminate).
  split; [exact H1|]. split; [exact H2|].
  exact (delete_backup_is_listed (str "3f2a91c") (str "2 hours ago")
           (str "notes/a|b.md") 0 H1 H2).
Defined.

(** The line that [git log] prints for the backup of a move is listed as
    a move with the two paths, when the paths are trimmed and not empty,
    the arrow between them is the first and the only one of the subject,
    and the subject does not hold the words of a deletion. *)
Theorem move_backup_is_listed hash timeAgo source destination index :
  Forall (fun c => c <> 124%N) hash ->
  Forall (fun c => c <> 124%N) timeAgo ->
  let message := AUTO_BACKUP ++ str " " ++ str "Before moving: " ++ source
                   ++ str " -> " ++ destination in
  includes message (str "Before deleting:") = false ->
  source <> [] -> trim source = source ->
  destination <> [] -> trim destination = destination ->
  includes (source ++ str " ->") (str " -> ") = false ->
  includes destination (str " -> ") = false ->
  operation_of_line (hash ++ str "|" ++ timeAgo ++ str "|" ++ message) index
  = Some {| op_index := S index;
            op_hash := trim hash;
            op_timeAgo := trim timeAgo;
            op_actionType := action_move;
            op_filePath := source;
            op_destPath := destination;
            op_fullMessage := message |}.
Proof.
  intros Hh Ht message Hdel Hs Hts Hd Htd Hfirst Honly.
  rewrite operation_of_line_fields by assumption.
  subst message.
  now rewrite (message_action_move source destination Hdel Hs Hts Hd Htd
                 Hfirst Honly).
Qed.

Lemma move_backup_is_listed_witness :
  let source := str "notes/a.md" in
  let destination := str "archive/a.md" in
  let message := AUTO_BACKUP ++ str " " ++ str "Before moving: " ++ source
                   ++ str " -> " ++ destination in
  Forall (fun c => c <> 124%N) (str "3f2a91c")
  /\ Forall (fun c => c <> 124%N) (str "2 hours ago")
  /\ includes message (str "Before deleting:") = false
  /\ source <> [] /\ trim source = source
  /\ destination <> [] /\ trim destination = destination
  /\ includes (source ++ str " ->") (str " -> ") = false
  /\ includes destination (str " -> ") = false
  /\ operation_of_line
       (str "3f2a91c" ++ str "|" ++ str "2 hours ago" ++ str "|" ++ message) 4
     = Some {| op_index := 5;
               op_hash := str "3f2a91c";
               op_timeAgo := str "2 hours ago";
               op_actionType := action_move;
               op_filePath := source;
               op_destPath := destination;
               op_fullMessage := message |}.
Proof.
  cbv zeta.
  assert (H1 : Forall (fun c => c <> 124%N) (str "3f2a91c"))
    by (repeat constructor; discriminate).
  assert (H2 : Forall (fun c => c <> 124%N) (str "2 hours ago"))
    by (repeat constructor; discriminate).
  assert (H4 : str "notes/a.md" <> []) by (vm_compute; discriminate).
  assert (H6 : str "archive/a.md" <> []) by (vm_compute; discriminate).
  split; [exact H1|]. split; [exact H2|]. split; [reflexivity|].
  split; [exact H4|]. split; [reflexivity|].
  split; [exact H6|]. split; [reflexivity|].
  split; [reflexivity|]. split; [reflexivity|].
  exact (move_backup_is_listed (str "3f2a91c") (str "2 hours ago")
           (str "notes/a.md") (str "archive/a.md") 4 H1 H2
           eq_refl H4 eq_refl H6 eq_refl eq_refl eq_refl).
Defined.

Lemma operation_of_line_no_separator line index :
  Forall (fun c => c <> 124%N) line -> operation_of_line line index = None.
Proof.
  intros H. unfold operation_of_line, split.
  change (str "|") with [124%N].
  rewrite split_go_none; [reflexivity|].
  destruct (includes line [124%N]) eqn:Hin; [|reflexivity].
  apply includes_spec in Hin. destruct Hin as (pre & post & ->).
  apply Forall_app in H. destruct H as [_ H]. inversion H; subst. congruence.
Qed.

(** One line without a field separator among the lines that [git log]
    printed makes the whole listing fail: no operation is returned, not
    even those of the lines that are well formed. *)
Theorem one_bad_line_fails_the_listing lines line : forall index,
  In line lines ->
  Forall (fun c => c <> 124%N) line ->
  operations_of_lines lines index = None.
Proof.
  induction lines as [|l ls IH]; intros index Hin Hline; [contradiction|].
  cbn [operations_of_lines]. destruct Hin as [->|Hin].
  - now rewrite operation_of_line_no_separator.
  - destruct (operation_of_line l index); [|reflexivity].
    now rewrite (IH (S index) Hin Hline).
Qed.

Lemma one_bad_line_fails_the_listing_witness :
  let good := str "3f2a91c|2 hours ago|[Auto-backup] Before deleting: a.md" in
  let bad := str "warning: something else" in
  In bad [good; bad]
  /\ Forall (fun c => c <> 124%N) bad
  /\ operations_of_lines [good; bad] 0 = None
  /\ listRecentFileOperations (Some (good ++ [LF] ++ bad)) = ListError.
Proof.
  cbv zeta.
  assert (H1 : In (str "warning: something else")
                 [str "3f2a91c|2 hours ago|[Auto-backup] Before deleting: a.md";
                  str "warning: something else"]) by (right; left; reflexivity).
  assert (H2 : Forall (fun c => c <> 124%N) (str "warning: something else"))
    by (repeat constructor; discriminate).
  split; [exact H1|]. split; [exact H2|].
  split; [exact (one_bad_line_fails_the_listing _ _ 0 H1 H2)|].
  vm_compute. reflexivity.
Defined.
